(** * zogue/ast: the syntax tree of the Zogue language and its printer

    A shallow embedding of [ast/ast.go].  Go pointers are [ptr] values (nil or
    a reference to the pointee), Go interface values are inductive types with
    one constructor for the nil interface and one per implementing pointer
    type, and a run-time panic is an explicit [Panic] result, so that "this
    call does not panic" is a statement one can prove or refute. *)

From stdpp Require Import base option list strings gmap.

(** ** Go run-time results *)

(** The two run-time panics that the code of [ast.go] could raise. *)
Inductive panic : Type :=
  | NilDereference    (* invalid memory address or nil pointer dereference *)
  | IndexOutOfRange.  (* index out of range [i] with length n *)

Inductive result (A : Type) : Type :=
  | Ok (a : A)
  | Panic (e : panic).
Arguments Ok {A} a.
Arguments Panic {A} e.

Global Instance result_ret : MRet result := @Ok.
Global Instance result_bind : MBind result := λ A B f m,
  match m with Ok a => f a | Panic e => Panic e end.

Global Instance panic_eq_dec : EqDecision panic.
Proof. solve_decision. Defined.
Global Instance result_eq_dec `{EqDecision A} : EqDecision (result A).
Proof. solve_decision. Defined.

(** A Go pointer [*A] in a tree-shaped heap: nil, or the address of a value. *)
Inductive ptr (A : Type) : Type :=
  | Nil
  | Ref (v : A).
Arguments Nil {A}.
Arguments Ref {A} v.

(** Reading through a pointer ([p.f]) panics on nil. *)
Definition deref {A} (p : ptr A) : result A :=
  match p with
  | Nil => Panic NilDereference
  | Ref v => Ok v
  end.

(** [s[i]] on a slice. *)
Definition index {A} (s : list A) (i : nat) : result A :=
  match s !! i with
  | Some x => Ok x
  | None => Panic IndexOutOfRange
  end.

(** [for _, x := range s { acc = body(acc, x) }] in a monad [M]: the loop
    stops at the first iteration that does not return. *)
Fixpoint for_range `{MBind M, MRet M} {A S}
    (body : S → A → M S) (acc : S) (s : list A) : M S :=
  match s with
  | [] => mret acc
  | x :: s' => acc' ← body acc x; for_range body acc' s'
  end.

(** ** bytes.Buffer

    Only the three uses the printer makes of it: the zero value, [WriteString]
    (whose returned count and error the code drops) and [String]. *)
Module Buffer.

Record t : Type := mk { buf : string }.

(** [var out bytes.Buffer] *)
Definition zero : t := mk "".

(** [out.WriteString(s)] *)
Definition WriteString (out : t) (s : string) : t := mk (buf out +:+ s).

(** [out.String()] *)
Definition String_ (out : t) : string := buf out.

End Buffer.

(** ** Tokens *)

(** Modelled from the spec: package [zogue/token] is imported by [ast.go] but
    its source is not at hand.  The spec gives a token as an immutable pair of
    a kind tag and a literal text, the kinds being [LET], [RETURN], [IDENT]
    and whatever else the lexer supplies. *)
Inductive TokenType : Type :=
  | LET
  | RETURN
  | IDENT
  | OtherType (tag : string).

Record Token : Type := mkToken {
  Type_ : TokenType;
  Literal : string
}.

(** ** Nodes *)

(** [type Identifier struct { Token token.Token; Value string }] *)
Record Identifier : Type := mkIdentifier {
  Identifier_Token : Token;
  Identifier_Value : string
}.

(** [type Expression interface { Node; expressionNode() }]: the nil interface,
    or a [*Identifier] (the one type with an [expressionNode] method), which
    may itself be a nil pointer. *)
Inductive Expression : Type :=
  | Expression_nil
  | Expression_Identifier (i : ptr Identifier).

(** [type LetStatement struct { Token token.Token; Name *Identifier; Value Expression }] *)
Record LetStatement : Type := mkLetStatement {
  LetStatement_Token : Token;
  LetStatement_Name : ptr Identifier;
  LetStatement_Value : Expression
}.

(** [type ReturnStatement struct { Token token.Token; ReturnValue Expression }] *)
Record ReturnStatement : Type := mkReturnStatement {
  ReturnStatement_Token : Token;
  ReturnStatement_ReturnValue : Expression
}.

(** [type ExpressionStatement struct { Token token.Token; Expression Expression }] *)
Record ExpressionStatement : Type := mkExpressionStatement {
  ExpressionStatement_Token : Token;
  ExpressionStatement_Expression : Expression
}.

(** [type Statement interface { Node; statementNode() }]: the nil interface or
    a pointer to one of the three types with a [statementNode] method. *)
Inductive Statement : Type :=
  | Statement_nil
  | Statement_Let (ls : ptr LetStatement)
  | Statement_Return (rs : ptr ReturnStatement)
  | Statement_Expression (es : ptr ExpressionStatement).

(** [type Program struct { Statements []Statement }] *)
Record Program : Type := mkProgram {
  Program_Statements : list Statement
}.

(** [type Node interface { TokenLiteral() string; String() string }]: every
    pointer type of the package has both methods. *)
Inductive Node : Type :=
  | Node_nil
  | Node_Program (p : ptr Program)
  | Node_Let (ls : ptr LetStatement)
  | Node_Return (rs : ptr ReturnStatement)
  | Node_ExpressionStatement (es : ptr ExpressionStatement)
  | Node_Identifier (i : ptr Identifier).

(** [e != nil] on an interface value: true also for a nil pointer inside. *)
Definition Expression_not_nil (e : Expression) : bool :=
  match e with
  | Expression_nil => false
  | Expression_Identifier _ => true
  end.

(** ** Identifier *)

(** [func (i *Identifier) TokenLiteral() string { return i.Token.Literal }] *)
Definition Identifier_TokenLiteral (i : ptr Identifier) : result string :=
  i ← deref i;
  mret (Literal (Identifier_Token i)).

(** [func (i *Identifier) String() string { return i.Value }] *)
Definition Identifier_String (i : ptr Identifier) : result string :=
  i ← deref i;
  mret (Identifier_Value i).

(** Method calls through the [Expression] interface. *)
Definition Expression_TokenLiteral (e : Expression) : result string :=
  match e with
  | Expression_nil => Panic NilDereference
  | Expression_Identifier i => Identifier_TokenLiteral i
  end.

Definition Expression_String (e : Expression) : result string :=
  match e with
  | Expression_nil => Panic NilDereference
  | Expression_Identifier i => Identifier_String i
  end.

(** ** LetStatement *)

(** [func (ls *LetStatement) TokenLiteral() string { return ls.Token.Literal }] *)
Definition LetStatement_TokenLiteral (ls : ptr LetStatement) : result string :=
  ls ← deref ls;
  mret (Literal (LetStatement_Token ls)).

Definition LetStatement_String (ls : ptr LetStatement) : result string :=
  let out := Buffer.zero in
  lit ← LetStatement_TokenLiteral ls;
  let out := Buffer.WriteString out (lit +:+ " ") in
  l ← deref ls;
  name ← Identifier_String (LetStatement_Name l);
  let out := Buffer.WriteString out name in
  let out := Buffer.WriteString out " = " in
  out ← (if Expression_not_nil (LetStatement_Value l)
         then value ← Expression_String (LetStatement_Value l);
              mret (Buffer.WriteString out value)
         else mret out);
  let out := Buffer.WriteString out ";" in
  mret (Buffer.String_ out).

(** ** ReturnStatement *)

(** [func (rs *ReturnStatement) TokenLiteral() string { return rs.Token.Literal }] *)
Definition ReturnStatement_TokenLiteral (rs : ptr ReturnStatement) : result string :=
  rs ← deref rs;
  mret (Literal (ReturnStatement_Token rs)).

Definition ReturnStatement_String (rs : ptr ReturnStatement) : result string :=
  let out := Buffer.zero in
  lit ← ReturnStatement_TokenLiteral rs;
  let out := Buffer.WriteString out (lit +:+ " ") in
  r ← deref rs;
  out ← (if Expression_not_nil (ReturnStatement_ReturnValue r)
         then value ← Expression_String (ReturnStatement_ReturnValue r);
              mret (Buffer.WriteString out value)
         else mret out);
  let out := Buffer.WriteString out ";" in
  mret (Buffer.String_ out).

(** ** ExpressionStatement *)

(** [func (es *ExpressionStatement) TokenLiteral() string { return es.Token.Literal }] *)
Definition ExpressionStatement_TokenLiteral (es : ptr ExpressionStatement) : result string :=
  es ← deref es;
  mret (Literal (ExpressionStatement_Token es)).

Definition ExpressionStatement_String (es : ptr ExpressionStatement) : result string :=
  e ← deref es;
  if Expression_not_nil (ExpressionStatement_Expression e)
  then Expression_String (ExpressionStatement_Expression e)
  else mret "".

(** ** Statement: method calls through the interface *)

Definition Statement_TokenLiteral (s : Statement) : result string :=
  match s with
  | Statement_nil => Panic NilDereference
  | Statement_Let ls => LetStatement_TokenLiteral ls
  | Statement_Return rs => ReturnStatement_TokenLiteral rs
  | Statement_Expression es => ExpressionStatement_TokenLiteral es
  end.

Definition Statement_String (s : Statement) : result string :=
  match s with
  | Statement_nil => Panic NilDereference
  | Statement_Let ls => LetStatement_String ls
  | Statement_Return rs => ReturnStatement_String rs
  | Statement_Expression es => ExpressionStatement_String es
  end.

(** ** Program *)

Definition Program_String (p : ptr Program) : result string :=
  let out := Buffer.zero in
  p ← deref p;
  out ← for_range
          (λ out s, str ← Statement_String s; mret (Buffer.WriteString out str))
          out (Program_Statements p);
  mret (Buffer.String_ out).

Definition Program_TokenLiteral (p : ptr Program) : result string :=
  p ← deref p;
  if bool_decide (0 < length (Program_Statements p))
  then s ← index (Program_Statements p) 0; Statement_TokenLiteral s
  else mret "".

(** ** Node: method calls through the interface *)

Definition Node_TokenLiteral (n : Node) : result string :=
  match n with
  | Node_nil => Panic NilDereference
  | Node_Program p => Program_TokenLiteral p
  | Node_Let ls => LetStatement_TokenLiteral ls
  | Node_Return rs => ReturnStatement_TokenLiteral rs
  | Node_ExpressionStatement es => ExpressionStatement_TokenLiteral es
  | Node_Identifier i => Identifier_TokenLiteral i
  end.

Definition Node_String (n : Node) : result string :=
  match n with
  | Node_nil => Panic NilDereference
  | Node_Program p => Program_String p
  | Node_Let ls => LetStatement_String ls
  | Node_Return rs => ReturnStatement_String rs
  | Node_ExpressionStatement es => ExpressionStatement_String es
  | Node_Identifier i => Identifier_String i
  end.


(** ** Well-formed trees

    What the spec asks of a node handed to a consumer: a pointer that must be
    present is not nil, and an optional child is either the nil interface
    (absent) or a pointer to a node. *)

Definition ptr_valid {A} (ok : A → bool) (p : ptr A) : bool :=
  match p with
  | Nil => false
  | Ref v => ok v
  end.

Definition wf_Identifier (i : ptr Identifier) : bool :=
  ptr_valid (λ _, true) i.

Definition wf_Expression (e : Expression) : bool :=
  match e with
  | Expression_nil => true
  | Expression_Identifier i => wf_Identifier i
  end.

Definition wf_LetStatement (ls : ptr LetStatement) : bool :=
  ptr_valid (λ l, wf_Identifier (LetStatement_Name l)
                  && wf_Expression (LetStatement_Value l)) ls.

Definition wf_ReturnStatement (rs : ptr ReturnStatement) : bool :=
  ptr_valid (λ r, wf_Expression (ReturnStatement_ReturnValue r)) rs.

Definition wf_ExpressionStatement (es : ptr ExpressionStatement) : bool :=
  ptr_valid (λ e, wf_Expression (ExpressionStatement_Expression e)) es.

Definition wf_Statement (s : Statement) : bool :=
  match s with
  | Statement_nil => false
  | Statement_Let ls => wf_LetStatement ls
  | Statement_Return rs => wf_ReturnStatement rs
  | Statement_Expression es => wf_ExpressionStatement es
  end.

Definition wf_Program (p : ptr Program) : bool :=
  ptr_valid (λ p, forallb wf_Statement (Program_Statements p)) p.

Definition wf_Node (n : Node) : bool :=
  match n with
  | Node_nil => false
  | Node_Program p => wf_Program p
  | Node_Let ls => wf_LetStatement ls
  | Node_Return rs => wf_ReturnStatement rs
  | Node_ExpressionStatement es => wf_ExpressionStatement es
  | Node_Identifier i => wf_Identifier i
  end.

(** The texts of a list of statements, glued without a separator. *)
Definition glue (texts : list string) : string := foldr String.append "" texts.

(** ** Sample trees *)

(** [&Identifier{Token: token.Token{Type: IDENT, Literal: name}, Value: name}] *)
Definition ident (name : string) : ptr Identifier :=
  Ref (mkIdentifier (mkToken IDENT name) name).

(** The tree in the comment of [ast.go] for the text [let x = y;]. *)
Definition let_x_y : ptr LetStatement :=
  Ref (mkLetStatement (mkToken LET "let") (ident "x")
         (Expression_Identifier (ident "y"))).

Definition return_five : ptr ReturnStatement :=
  Ref (mkReturnStatement (mkToken RETURN "return")
         (Expression_Identifier (ident "five"))).

Definition return_bare : ptr ReturnStatement :=
  Ref (mkReturnStatement (mkToken RETURN "return") Expression_nil).

Definition stmt_foobar : ptr ExpressionStatement :=
  Ref (mkExpressionStatement (mkToken IDENT "foobar")
         (Expression_Identifier (ident "foobar"))).

Definition sample_program : ptr Program :=
  Ref (mkProgram [Statement_Let let_x_y; Statement_Return return_bare;
                  Statement_Expression stmt_foobar]).

(** * The same methods over an explicit store

    Above, a pointer carries its pointee.  Here a pointer is an address into
    a store of allocated structs and every field access [p.f] reads the store,
    so that what a method does to the memory it is handed, and whether two
    calls in a row can differ, are questions about the store that comes out.
    A computation takes the store and gives back its outcome (a value or a
    panic) with the store it leaves; it gives [None] only when it follows an
    address that was never allocated, which no Go program can hold. *)
Module Mem.

Definition loc : Type := positive.

(** A Go pointer: nil or an address. *)
Definition pointer : Type := option loc.

Inductive Expression : Type :=
  | Expression_nil
  | Expression_Identifier (i : pointer).

Record LetStatement : Type := mkLetStatement {
  LetStatement_Token : Token;
  LetStatement_Name : pointer;
  LetStatement_Value : Expression
}.

Record ReturnStatement : Type := mkReturnStatement {
  ReturnStatement_Token : Token;
  ReturnStatement_ReturnValue : Expression
}.

Record ExpressionStatement : Type := mkExpressionStatement {
  ExpressionStatement_Token : Token;
  ExpressionStatement_Expression : Expression
}.

Inductive Statement : Type :=
  | Statement_nil
  | Statement_Let (ls : pointer)
  | Statement_Return (rs : pointer)
  | Statement_Expression (es : pointer).

Record Program : Type := mkProgram {
  Program_Statements : list Statement
}.

Inductive Node : Type :=
  | Node_nil
  | Node_Program (p : pointer)
  | Node_Let (ls : pointer)
  | Node_Return (rs : pointer)
  | Node_ExpressionStatement (es : pointer)
  | Node_Identifier (i : pointer).

(** The allocated structs, by type. *)
Record store : Type := mkStore {
  identifiers : gmap loc Identifier;
  letStatements : gmap loc LetStatement;
  returnStatements : gmap loc ReturnStatement;
  expressionStatements : gmap loc ExpressionStatement;
  programs : gmap loc Program
}.

Definition M (A : Type) : Type := store → option (result A * store).

Global Instance M_ret : MRet M := λ A a h, Some (Ok a, h).
Global Instance M_bind : MBind M := λ A B f m h,
  match m h with
  | Some (Ok a, h') => f a h'
  | Some (Panic e, h') => Some (Panic e, h')
  | None => None
  end.

Definition raise {A} (e : panic) : M A := λ h, Some (Panic e, h).

(** [*p] for a pointer to a struct kept in [cells]. *)
Definition load {A} (cells : store → gmap loc A) (p : pointer) : M A := λ h,
  match p with
  | None => Some (Panic NilDereference, h)
  | Some l =>
      match cells h !! l with
      | Some v => Some (Ok v, h)
      | None => None
      end
  end.

(** [p.f] *)
Definition field {A B} (cells : store → gmap loc A) (p : pointer) (f : A → B) : M B :=
  v ← load cells p; mret (f v).

(** [i.Value = s]: no method of the package does this; it is the kind of
    step that [readonly] rules out. *)
Definition set_Identifier_Value (i : pointer) (s : string) : M unit := λ h,
  match i with
  | None => Some (Panic NilDereference, h)
  | Some l =>
      match identifiers h !! l with
      | Some v =>
          Some (Ok (),
                mkStore (<[l := mkIdentifier (Identifier_Token v) s]> (identifiers h))
                  (letStatements h) (returnStatements h)
                  (expressionStatements h) (programs h))
      | None => None
      end
  end.

Definition Expression_not_nil (e : Expression) : bool :=
  match e with
  | Expression_nil => false
  | Expression_Identifier _ => true
  end.

Definition Identifier_TokenLiteral (i : pointer) : M string :=
  tok ← field identifiers i Identifier_Token;
  mret (Literal tok).

Definition Identifier_String (i : pointer) : M string :=
  field identifiers i Identifier_Value.

Definition Expression_String (e : Expression) : M string :=
  match e with
  | Expression_nil => raise NilDereference
  | Expression_Identifier i => Identifier_String i
  end.

Definition LetStatement_TokenLiteral (ls : pointer) : M string :=
  tok ← field letStatements ls LetStatement_Token;
  mret (Literal tok).

Definition LetStatement_String (ls : pointer) : M string :=
  let out := Buffer.zero in
  lit ← LetStatement_TokenLiteral ls;
  let out := Buffer.WriteString out (lit +:+ " ") in
  name ← field letStatements ls LetStatement_Name;
  name ← Identifier_String name;
  let out := Buffer.WriteString out name in
  let out := Buffer.WriteString out " = " in
  value ← field letStatements ls LetStatement_Value;
  out ← (if Expression_not_nil value
         then value ← field letStatements ls LetStatement_Value;
              value ← Expression_String value;
              mret (Buffer.WriteString out value)
         else mret out);
  let out := Buffer.WriteString out ";" in
  mret (Buffer.String_ out).

Definition ReturnStatement_TokenLiteral (rs : pointer) : M string :=
  tok ← field returnStatements rs ReturnStatement_Token;
  mret (Literal tok).

Definition ReturnStatement_String (rs : pointer) : M string :=
  let out := Buffer.zero in
  lit ← ReturnStatement_TokenLiteral rs;
  let out := Buffer.WriteString out (lit +:+ " ") in
  value ← field returnStatements rs ReturnStatement_ReturnValue;
  out ← (if Expression_not_nil value
         then value ← field returnStatements rs ReturnStatement_ReturnValue;
              value ← Expression_String value;
              mret (Buffer.WriteString out value)
         else mret out);
  let out := Buffer.WriteString out ";" in
  mret (Buffer.String_ out).

Definition ExpressionStatement_TokenLiteral (es : pointer) : M string :=
  tok ← field expressionStatements es ExpressionStatement_Token;
  mret (Literal tok).

Definition ExpressionStatement_String (es : pointer) : M string :=
  e ← field expressionStatements es ExpressionStatement_Expression;
  if Expression_not_nil e
  then e ← field expressionStatements es ExpressionStatement_Expression;
       Expression_String e
  else mret "".

Definition Statement_TokenLiteral (s : Statement) : M string :=
  match s with
  | Statement_nil => raise NilDereference
  | Statement_Let ls => LetStatement_TokenLiteral ls
  | Statement_Return rs => ReturnStatement_TokenLiteral rs
  | Statement_Expression es => ExpressionStatement_TokenLiteral es
  end.

Definition Statement_String (s : Statement) : M string :=
  match s with
  | Statement_nil => raise NilDereference
  | Statement_Let ls => LetStatement_String ls
  | Statement_Return rs => ReturnStatement_String rs
  | Statement_Expression es => ExpressionStatement_String es
  end.

Definition Program_String (p : pointer) : M string :=
  let out := Buffer.zero in
  stmts ← field programs p Program_Statements;
  out ← for_range
          (λ out s, str ← Statement_String s; mret (Buffer.WriteString out str))
          out stmts;
  mret (Buffer.String_ out).

Definition Program_TokenLiteral (p : pointer) : M string :=
  stmts ← field programs p Program_Statements;
  if bool_decide (0 < length stmts)
  then stmts ← field programs p Program_Statements;
       s ← (match stmts !! 0 with
            | Some s => mret s
            | None => raise IndexOutOfRange
            end);
       Statement_TokenLiteral s
  else mret "".

Definition Node_TokenLiteral (n : Node) : M string :=
  match n with
  | Node_nil => raise NilDereference
  | Node_Program p => Program_TokenLiteral p
  | Node_Let ls => LetStatement_TokenLiteral ls
  | Node_Return rs => ReturnStatement_TokenLiteral rs
  | Node_ExpressionStatement es => ExpressionStatement_TokenLiteral es
  | Node_Identifier i => Identifier_TokenLiteral i
  end.

Definition Node_String (n : Node) : M string :=
  match n with
  | Node_nil => raise NilDereference
  | Node_Program p => Program_String p
  | Node_Let ls => LetStatement_String ls
  | Node_Return rs => ReturnStatement_String rs
  | Node_ExpressionStatement es => ExpressionStatement_String es
  | Node_Identifier i => Identifier_String i
  end.

(** A computation that hands back the store it was given, whatever its
    outcome. *)
Definition readonly {A} (m : M A) : Prop :=
  ∀ h r h', m h = Some (r, h') → h' = h.

End Mem.

(** ** From a store to the tree it holds

    Following the pointers from a node of the store gives a tree of the first
    model; [None] when an address on the way is not allocated. *)

Definition reify_ptr {A B} (cells : gmap Mem.loc A) (f : A → option B)
    (p : Mem.pointer) : option (ptr B) :=
  match p with
  | None => Some Nil
  | Some l => a ← cells !! l; b ← f a; Some (Ref b)
  end.

Definition reify_Identifier (h : Mem.store) (i : Mem.pointer) : option (ptr Identifier) :=
  reify_ptr (Mem.identifiers h) Some i.

Definition reify_Expression (h : Mem.store) (e : Mem.Expression) : option Expression :=
  match e with
  | Mem.Expression_nil => Some Expression_nil
  | Mem.Expression_Identifier i => Expression_Identifier <$> reify_Identifier h i
  end.

Definition reify_LetStatement (h : Mem.store) (ls : Mem.pointer) : option (ptr LetStatement) :=
  reify_ptr (Mem.letStatements h)
    (λ l, name ← reify_Identifier h (Mem.LetStatement_Name l);
          value ← reify_Expression h (Mem.LetStatement_Value l);
          Some (mkLetStatement (Mem.LetStatement_Token l) name value)) ls.

Definition reify_ReturnStatement (h : Mem.store) (rs : Mem.pointer)
    : option (ptr ReturnStatement) :=
  reify_ptr (Mem.returnStatements h)
    (λ r, value ← reify_Expression h (Mem.ReturnStatement_ReturnValue r);
          Some (mkReturnStatement (Mem.ReturnStatement_Token r) value)) rs.

Definition reify_ExpressionStatement (h : Mem.store) (es : Mem.pointer)
    : option (ptr ExpressionStatement) :=
  reify_ptr (Mem.expressionStatements h)
    (λ e, value ← reify_Expression h (Mem.ExpressionStatement_Expression e);
          Some (mkExpressionStatement (Mem.ExpressionStatement_Token e) value)) es.

Definition reify_Statement (h : Mem.store) (s : Mem.Statement) : option Statement :=
  match s with
  | Mem.Statement_nil => Some Statement_nil
  | Mem.Statement_Let ls => Statement_Let <$> reify_LetStatement h ls
  | Mem.Statement_Return rs => Statement_Return <$> reify_ReturnStatement h rs
  | Mem.Statement_Expression es => Statement_Expression <$> reify_ExpressionStatement h es
  end.

Definition reify_Program (h : Mem.store) (p : Mem.pointer) : option (ptr Program) :=
  reify_ptr (Mem.programs h)
    (λ p, stmts ← mapM (reify_Statement h) (Mem.Program_Statements p);
          Some (mkProgram stmts)) p.

Definition reify_Node (h : Mem.store) (n : Mem.Node) : option Node :=
  match n with
  | Mem.Node_nil => Some Node_nil
  | Mem.Node_Program p => Node_Program <$> reify_Program h p
  | Mem.Node_Let ls => Node_Let <$> reify_LetStatement h ls
  | Mem.Node_Return rs => Node_Return <$> reify_ReturnStatement h rs
  | Mem.Node_ExpressionStatement es =>
      Node_ExpressionStatement <$> reify_ExpressionStatement h es
  | Mem.Node_Identifier i => Node_Identifier <$> reify_Identifier h i
  end.

(** A store holding [sample_program]: the program at address 1 of the
    programs, its three statements at address 1 of their kinds, and the
    identifiers [x], [y] and [foobar] at addresses 1, 2 and 3. *)
Definition sample_store : Mem.store :=
  Mem.mkStore
    (<[1%positive := mkIdentifier (mkToken IDENT "x") "x"]>
       (<[2%positive := mkIdentifier (mkToken IDENT "y") "y"]>
          (<[3%positive := mkIdentifier (mkToken IDENT "foobar") "foobar"]> ∅)))
    {[ 1%positive :=
         Mem.mkLetStatement (mkToken LET "let") (Some 1%positive)
           (Mem.Expression_Identifier (Some 2%positive)) ]}
    {[ 1%positive := Mem.mkReturnStatement (mkToken RETURN "return") Mem.Expression_nil ]}
    {[ 1%positive :=
         Mem.mkExpressionStatement (mkToken IDENT "foobar")
           (Mem.Expression_Identifier (Some 3%positive)) ]}
    {[ 1%positive :=
         Mem.mkProgram [Mem.Statement_Let (Some 1%positive);
                        Mem.Statement_Return (Some 1%positive);
                        Mem.Statement_Expression (Some 1%positive)] ]}.

Definition sample_node : Mem.Node := Mem.Node_Program (Some 1%positive).

(** [sample_program] once more, at other addresses and among structs that
    are not part of it. *)
Definition sample_store_moved : Mem.store :=
  Mem.mkStore
    (<[7%positive := mkIdentifier (mkToken IDENT "x") "x"]>
       (<[8%positive := mkIdentifier (mkToken IDENT "y") "y"]>
          (<[9%positive := mkIdentifier (mkToken IDENT "foobar") "foobar"]>
             {[ 1%positive := mkIdentifier (mkToken IDENT "z") "z" ]})))
    {[ 5%positive :=
         Mem.mkLetStatement (mkToken LET "let") (Some 7%positive)
           (Mem.Expression_Identifier (Some 8%positive)) ]}
    {[ 5%positive := Mem.mkReturnStatement (mkToken RETURN "return") Mem.Expression_nil ]}
    {[ 5%positive :=
         Mem.mkExpressionStatement (mkToken IDENT "foobar")
           (Mem.Expression_Identifier (Some 9%positive)) ]}
    (<[2%positive :=
         Mem.mkProgram [Mem.Statement_Let (Some 5%positive);
                        Mem.Statement_Return (Some 5%positive);
                        Mem.Statement_Expression (Some 5%positive)]]>
       {[ 1%positive := Mem.mkProgram [] ]}).

(** [sample_store] after one more allocation: an identifier at address 4. *)
Definition sample_store_grown : Mem.store :=
  Mem.mkStore
    (<[4%positive := mkIdentifier (mkToken IDENT "z") "z"]>
       (Mem.identifiers sample_store))
    (Mem.letStatements sample_store)
    (Mem.returnStatements sample_store)
    (Mem.expressionStatements sample_store)
    (Mem.programs sample_store).

(** Every struct of [h] is in [h'], at the same address and with the same
    fields: [h'] is [h] after more allocations. *)
Definition store_included (h h' : Mem.store) : Prop :=
  Mem.identifiers h ⊆ Mem.identifiers h'
  ∧ Mem.letStatements h ⊆ Mem.letStatements h'
  ∧ Mem.returnStatements h ⊆ Mem.returnStatements h'
  ∧ Mem.expressionStatements h ⊆ Mem.expressionStatements h'
  ∧ Mem.programs h ⊆ Mem.programs h'.

(** A computation that, when it comes back from [h], comes back the same
    from every store that includes [h], and leaves either store as it was. *)
Definition framed {A} (m : Mem.M A) : Prop :=
  ∀ h h' r h1,
    m h = Some (r, h1) → store_included h h' →
    h1 = h ∧ m h' = Some (r, h').

(** The call returns a value: it does not panic. *)
Definition returns {A} (r : result A) : Prop := ∃ a, r = Ok a.

(** * Properties of the printer *)

(** ** Texts *)

Lemma append_nil_l (s : string) : "" +:+ s = s.
Proof. reflexivity. Qed.

Lemma append_nil_r (s : string) : s +:+ "" = s.
Proof. induction s as [|c s IH]; [done | exact (f_equal (String c) IH)]. Qed.

Lemma append_assoc (s t u : string) : (s +:+ t) +:+ u = s +:+ (t +:+ u).
Proof. induction s as [|c s IH]; [done | exact (f_equal (String c) IH)]. Qed.

Lemma WriteString_WriteString (out : Buffer.t) (s t : string) :
  Buffer.WriteString (Buffer.WriteString out s) t = Buffer.WriteString out (s +:+ t).
Proof. unfold Buffer.WriteString; simpl. by rewrite append_assoc. Qed.

(** ** Results *)

Lemma result_bind_Ok {A B} (a : A) (f : A → result B) : (Ok a ≫= f) = f a.
Proof. reflexivity. Qed.

(** Every statement of a list prints: the texts, in order. *)
Lemma mapM_Ok_Forall {A B} (f : A → result B) (l : list A) :
  Forall (λ x, ∃ y, f x = Ok y) l → ∃ ys, mapM f l = Ok ys.
Proof.
  induction 1 as [|x l [y Hy] _ [ys IH]]; simpl.
  - by exists [].
  - exists (y :: ys). by rewrite Hy, result_bind_Ok, IH.
Qed.

(** ** The loop of [Program.String] *)

(** The loop appends to the buffer the texts of the statements, in order;
    a statement that panics ends it with that panic. *)
Lemma for_range_WriteString (stmts : list Statement) (out : Buffer.t) :
  for_range (λ out s, str ← Statement_String s; mret (Buffer.WriteString out str))
    out stmts
  = texts ← mapM Statement_String stmts;
    mret (Buffer.WriteString out (glue texts)).
Proof.
  revert out. induction stmts as [|s stmts IH]; intros out; simpl.
  - unfold mret, result_ret, Buffer.WriteString, glue; simpl.
    rewrite append_nil_r. by destruct out.
  - destruct (Statement_String s) as [str|e]; [|done].
    rewrite !result_bind_Ok, IH.
    destruct (mapM Statement_String stmts) as [texts|e]; [|done].
    by rewrite !result_bind_Ok, WriteString_WriteString.
Qed.

Lemma Program_String_glue (p : Program) :
  Program_String (Ref p)
  = texts ← mapM Statement_String (Program_Statements p); mret (glue texts).
Proof.
  unfold Program_String; simpl. rewrite for_range_WriteString.
  by destruct (mapM Statement_String (Program_Statements p)).
Qed.

(** ** Identifier *)

Lemma Identifier_String_Ref (i : Identifier) :
  Identifier_String (Ref i) = Ok (Identifier_Value i).
Proof. reflexivity. Qed.

Lemma Identifier_TokenLiteral_Ref (i : Identifier) :
  Identifier_TokenLiteral (Ref i) = Ok (Literal (Identifier_Token i)).
Proof. reflexivity. Qed.

(** C2, as the spec states it, fails: the struct has two independent public
    fields, and an identifier whose token reads [x] and whose name is [y]
    prints [y] while its token literal is [x]. *)
Lemma Identifier_texts_may_differ :
  Identifier_String (Ref (mkIdentifier (mkToken IDENT "x") "y")) = Ok "y"
  ∧ Identifier_TokenLiteral (Ref (mkIdentifier (mkToken IDENT "x") "y")) = Ok "x"
  ∧ Identifier_String (Ref (mkIdentifier (mkToken IDENT "x") "y"))
    ≠ Identifier_TokenLiteral (Ref (mkIdentifier (mkToken IDENT "x") "y")).
Proof. repeat split. discriminate. Qed.

(** C2, amended: for every Identifier [i], [String] returns the name and
    [TokenLiteral] returns the literal of the token; the two texts are equal
    exactly when the identifier was built with its name equal to the literal
    of its token. *)
Theorem Identifier_String_TokenLiteral (i : Identifier) :
  Identifier_String (Ref i) = Ok (Identifier_Value i)
  ∧ Identifier_TokenLiteral (Ref i) = Ok (Literal (Identifier_Token i))
  ∧ (Identifier_Value i = Literal (Identifier_Token i)
     ↔ Identifier_String (Ref i) = Identifier_TokenLiteral (Ref i)).
Proof.
  rewrite Identifier_String_Ref, Identifier_TokenLiteral_Ref.
  split; [done|]. split; [done|].
  split; [intros -> | intros [= ->]]; done.
Qed.

(** ** ReturnStatement *)

Lemma ReturnStatement_TokenLiteral_Ref (r : ReturnStatement) :
  ReturnStatement_TokenLiteral (Ref r) = Ok (Literal (ReturnStatement_Token r)).
Proof. reflexivity. Qed.

Lemma ReturnStatement_String_Ref (tok : Token) (e : Expression) :
  ReturnStatement_String (Ref (mkReturnStatement tok e))
  = if Expression_not_nil e
    then value ← Expression_String e; mret (Literal tok +:+ " " +:+ value +:+ ";")
    else Ok (Literal tok +:+ " " +:+ ";").
Proof.
  unfold ReturnStatement_String; simpl.
  destruct e as [|i]; simpl.
  - unfold mret, result_ret. f_equal. unfold Buffer.String_, Buffer.WriteString; simpl.
    by rewrite append_nil_l, !append_assoc.
  - destruct (Identifier_String i) as [value|err]; [|done].
    unfold mret, result_ret; simpl. f_equal.
    unfold Buffer.String_, Buffer.WriteString; simpl.
    by rewrite append_nil_l, !append_assoc.
Qed.

(** C1, as the spec states it, fails on its second half: the space that
    follows the token literal is written before the value is looked at, so a
    bare return prints with a space before the semicolon. *)
Lemma ReturnStatement_String_bare_has_space :
  ReturnStatement_String return_bare = Ok "return ;"
  ∧ ReturnStatement_String return_bare ≠ Ok "return;".
Proof. split; [reflexivity | discriminate]. Qed.

Example ReturnStatement_String_return_five :
  ReturnStatement_String return_five = Ok "return five;".
Proof. reflexivity. Qed.

(** C1, amended: a ReturnStatement whose token literal is [return] and whose
    value is an Identifier named [five] prints [return five;]; with the value
    absent it prints [return ;]: the token literal, the space, the semicolon,
    and no text for the value. *)
Theorem ReturnStatement_String_return (kind : TokenType) (itok : Token) :
  ReturnStatement_String
    (Ref (mkReturnStatement (mkToken kind "return")
            (Expression_Identifier (Ref (mkIdentifier itok "five")))))
  = Ok "return five;"
  ∧ ReturnStatement_String
      (Ref (mkReturnStatement (mkToken kind "return") Expression_nil))
    = Ok "return ;".
Proof. by rewrite !ReturnStatement_String_Ref. Qed.

(** ** LetStatement *)

Lemma LetStatement_TokenLiteral_Ref (l : LetStatement) :
  LetStatement_TokenLiteral (Ref l) = Ok (Literal (LetStatement_Token l)).
Proof. reflexivity. Qed.

Lemma LetStatement_String_Ref (tok : Token) (name : ptr Identifier) (e : Expression) :
  LetStatement_String (Ref (mkLetStatement tok name e))
  = n ← Identifier_String name;
    if Expression_not_nil e
    then value ← Expression_String e;
         mret (Literal tok +:+ " " +:+ n +:+ " = " +:+ value +:+ ";")
    else Ok (Literal tok +:+ " " +:+ n +:+ " = " +:+ ";").
Proof.
  unfold LetStatement_String; simpl.
  destruct (Identifier_String name) as [n|err]; [|done].
  rewrite !result_bind_Ok.
  destruct e as [|i]; simpl.
  - unfold mret, result_ret. f_equal. unfold Buffer.String_, Buffer.WriteString; simpl.
    by rewrite append_nil_l, !append_assoc.
  - destruct (Identifier_String i) as [value|err]; [|done].
    unfold mret, result_ret; simpl. f_equal.
    unfold Buffer.String_, Buffer.WriteString; simpl.
    by rewrite append_nil_l, !append_assoc.
Qed.

(** C5: the tree of the comment in [ast.go], a [let] whose name is the
    identifier [x] and whose value is the identifier [y], prints as
    [let x = y;]. *)
Theorem LetStatement_String_let_x_y : LetStatement_String let_x_y = Ok "let x = y;".
Proof. unfold let_x_y, ident. by rewrite LetStatement_String_Ref. Qed.

(** C6: a LetStatement whose name is present and whose value is absent
    prints, without failing, its token literal, a space, the text of the
    name, [ = ] and the semicolon, with nothing for the value. *)
Theorem LetStatement_String_no_value (tok : Token) (name : Identifier) :
  LetStatement_String (Ref (mkLetStatement tok (Ref name) Expression_nil))
  = (lit ← LetStatement_TokenLiteral (Ref (mkLetStatement tok (Ref name) Expression_nil));
     n ← Identifier_String (Ref name);
     mret (lit +:+ " " +:+ n +:+ " = " +:+ ";"))
  ∧ LetStatement_String (Ref (mkLetStatement tok (Ref name) Expression_nil))
    = Ok (Literal tok +:+ " " +:+ Identifier_Value name +:+ " = " +:+ ";").
Proof. by rewrite LetStatement_String_Ref. Qed.

Example LetStatement_String_let_x_no_value :
  LetStatement_String (Ref (mkLetStatement (mkToken LET "let") (ident "x") Expression_nil))
  = Ok "let x = ;".
Proof. reflexivity. Qed.

(** The name is not optional: a nil [Name] makes the method panic. *)
Example LetStatement_String_nil_Name :
  LetStatement_String
    (Ref (mkLetStatement (mkToken LET "let") Nil (Expression_Identifier (ident "y"))))
  = Panic NilDereference.
Proof. reflexivity. Qed.

(** An interface value that holds a nil [*Identifier] is not the nil
    interface: the test [!= nil] lets it through and the call panics. *)
Example ReturnStatement_String_typed_nil :
  ReturnStatement_String
    (Ref (mkReturnStatement (mkToken RETURN "return") (Expression_Identifier Nil)))
  = Panic NilDereference.
Proof. reflexivity. Qed.

(** ** ExpressionStatement *)

Lemma ExpressionStatement_TokenLiteral_Ref (e : ExpressionStatement) :
  ExpressionStatement_TokenLiteral (Ref e) = Ok (Literal (ExpressionStatement_Token e)).
Proof. reflexivity. Qed.

Lemma ExpressionStatement_String_Ref (tok : Token) (e : Expression) :
  ExpressionStatement_String (Ref (mkExpressionStatement tok e))
  = if Expression_not_nil e then Expression_String e else Ok "".
Proof. reflexivity. Qed.

(** C7, as the spec states it, fails on "never failing": an interface value
    that holds a nil [*Identifier] is not the nil interface, so the test
    [es.Expression != nil] takes it for a present expression, and the call of
    its [String] dereferences the nil pointer. *)
Lemma ExpressionStatement_String_typed_nil_panics :
  Expression_not_nil (Expression_Identifier Nil) = true
  ∧ ExpressionStatement_String
      (Ref (mkExpressionStatement (mkToken IDENT "foobar") (Expression_Identifier Nil)))
    = Panic NilDereference
  ∧ ¬ ∃ text : string,
        ExpressionStatement_String
          (Ref (mkExpressionStatement (mkToken IDENT "foobar")
                  (Expression_Identifier Nil)))
        = Ok text.
Proof. split; [reflexivity|]. split; [reflexivity|]. intros [text Htext]. discriminate. Qed.

(** C7, amended: an ExpressionStatement prints what its expression prints
    (the same text, or the same panic) when the expression is not the nil
    interface, and the empty text when it is.  It returns a text when the
    expression is absent or is an Identifier, and panics exactly when the
    interface holds a nil [*Identifier]; one that wraps the identifier
    [foobar] prints [foobar]. *)
Theorem ExpressionStatement_String_delegates (tok : Token) (e : Expression) :
  ExpressionStatement_String (Ref (mkExpressionStatement tok e))
  = (if Expression_not_nil e then Expression_String e else Ok "")
  ∧ (e ≠ Expression_Identifier Nil
     ↔ ∃ text : string,
         ExpressionStatement_String (Ref (mkExpressionStatement tok e)) = Ok text)
  ∧ ExpressionStatement_String
      (Ref (mkExpressionStatement tok (Expression_Identifier Nil)))
    = Panic NilDereference
  ∧ (∀ i : Identifier,
       ExpressionStatement_String
         (Ref (mkExpressionStatement tok (Expression_Identifier (Ref i))))
       = Expression_String (Expression_Identifier (Ref i))
       ∧ Expression_String (Expression_Identifier (Ref i)) = Ok (Identifier_Value i))
  ∧ ExpressionStatement_String (Ref (mkExpressionStatement tok Expression_nil)) = Ok ""
  ∧ (∀ itok : Token,
       ExpressionStatement_String
         (Ref (mkExpressionStatement tok
                 (Expression_Identifier (Ref (mkIdentifier itok "foobar")))))
       = Ok "foobar").
Proof.
  split; [apply ExpressionStatement_String_Ref|].
  split.
  { rewrite ExpressionStatement_String_Ref. destruct e as [|[|i]]; simpl.
    - split; [by exists "" | discriminate].
    - split; [done | by intros [text [=]]].
    - split; [by exists (Identifier_Value i) | discriminate]. }
  split; [reflexivity|].
  split; [intros i; by rewrite ExpressionStatement_String_Ref|].
  split; [apply ExpressionStatement_String_Ref|].
  intros itok. by rewrite ExpressionStatement_String_Ref.
Qed.

(** C10: the text of an ExpressionStatement does not depend on its token:
    two statements with the same expression print the same whatever their
    tokens, and the token is what [TokenLiteral] returns. *)
Theorem ExpressionStatement_String_ignores_Token (tok1 tok2 : Token) (e : Expression) :
  ExpressionStatement_String (Ref (mkExpressionStatement tok1 e))
  = ExpressionStatement_String (Ref (mkExpressionStatement tok2 e))
  ∧ ExpressionStatement_TokenLiteral (Ref (mkExpressionStatement tok1 e)) = Ok (Literal tok1)
  ∧ ExpressionStatement_TokenLiteral (Ref (mkExpressionStatement tok2 e)) = Ok (Literal tok2).
Proof. by rewrite !ExpressionStatement_String_Ref. Qed.

(** ** Program *)

(** The only panic a method called through [Statement] can raise is the nil
    dereference. *)
Lemma Statement_TokenLiteral_no_index_panic (s : Statement) :
  Statement_TokenLiteral s ≠ Panic IndexOutOfRange.
Proof. destruct s as [|[|?]|[|?]|[|?]]; discriminate. Qed.

Lemma Program_TokenLiteral_Ref (p : Program) :
  Program_TokenLiteral (Ref p)
  = match Program_Statements p with
    | [] => Ok ""
    | s :: _ => Statement_TokenLiteral s
    end.
Proof.
  unfold Program_TokenLiteral. cbn [deref]. rewrite result_bind_Ok.
  destruct (Program_Statements p) as [|s rest].
  - rewrite bool_decide_eq_false_2 by (simpl; lia). done.
  - rewrite bool_decide_eq_true_2 by (simpl; lia). done.
Qed.

(** C4: the token literal of a Program is the token literal of its first
    statement when it has one and the empty text when it has none; the index
    is never out of range, and the empty program does not panic. *)
Theorem Program_TokenLiteral_first (p : Program) :
  Program_TokenLiteral (Ref p)
  = match Program_Statements p with
    | [] => Ok ""
    | s :: _ => Statement_TokenLiteral s
    end
  ∧ Program_TokenLiteral (Ref p) ≠ Panic IndexOutOfRange
  ∧ Program_TokenLiteral (Ref (mkProgram [])) = Ok "".
Proof.
  split; [apply Program_TokenLiteral_Ref|]. split; [|done].
  rewrite Program_TokenLiteral_Ref.
  destruct (Program_Statements p) as [|s rest]; [discriminate|].
  apply Statement_TokenLiteral_no_index_panic.
Qed.

(** C8: a Program prints the texts of its statements one after the other, in
    order and with nothing between them; with two statements that is the text
    of the first followed by the text of the second. *)
Theorem Program_String_concat (p : Program) (stmtA stmtB : Statement) :
  Program_String (Ref p)
  = (texts ← mapM Statement_String (Program_Statements p); mret (glue texts))
  ∧ Program_String (Ref (mkProgram [stmtA; stmtB]))
    = (a ← Statement_String stmtA; b ← Statement_String stmtB; mret (a +:+ b)).
Proof.
  split; [apply Program_String_glue|].
  rewrite Program_String_glue; simpl.
  destruct (Statement_String stmtA) as [a|e]; [|done].
  destruct (Statement_String stmtB) as [b|e]; [|done].
  rewrite !result_bind_Ok. unfold mret, result_ret, glue; simpl.
  by rewrite append_nil_r.
Qed.

Example Program_String_sample :
  Program_String sample_program = Ok "let x = y;return ;foobar".
Proof. reflexivity. Qed.

(** ** Totality on well-formed trees *)

Lemma wf_Identifier_returns (i : ptr Identifier) :
  wf_Identifier i = true →
  returns (Identifier_TokenLiteral i) ∧ returns (Identifier_String i).
Proof. destruct i as [|i]; [done|]. intros _. split; eexists; reflexivity. Qed.

Lemma wf_Expression_returns (e : Expression) :
  wf_Expression e = true → Expression_not_nil e = true →
  returns (Expression_String e).
Proof.
  destruct e as [|i]; [done|]. intros Hwf _.
  by apply wf_Identifier_returns.
Qed.

Lemma wf_LetStatement_returns (ls : ptr LetStatement) :
  wf_LetStatement ls = true →
  returns (LetStatement_TokenLiteral ls) ∧ returns (LetStatement_String ls).
Proof.
  destruct ls as [|[tok name e]]; [done|]. simpl.
  intros [Hname He]%andb_prop. split; [eexists; reflexivity|].
  rewrite LetStatement_String_Ref.
  destruct (wf_Identifier_returns name Hname) as [_ [n ->]].
  rewrite result_bind_Ok.
  destruct (Expression_not_nil e) eqn:Hnil; [|by eexists].
  destruct (wf_Expression_returns e He Hnil) as [value ->]. by eexists.
Qed.

Lemma wf_ReturnStatement_returns (rs : ptr ReturnStatement) :
  wf_ReturnStatement rs = true →
  returns (ReturnStatement_TokenLiteral rs) ∧ returns (ReturnStatement_String rs).
Proof.
  destruct rs as [|[tok e]]; [done|]. simpl.
  intros He. split; [eexists; reflexivity|].
  rewrite ReturnStatement_String_Ref.
  destruct (Expression_not_nil e) eqn:Hnil; [|by eexists].
  destruct (wf_Expression_returns e He Hnil) as [value ->]. by eexists.
Qed.

Lemma wf_ExpressionStatement_returns (es : ptr ExpressionStatement) :
  wf_ExpressionStatement es = true →
  returns (ExpressionStatement_TokenLiteral es)
  ∧ returns (ExpressionStatement_String es).
Proof.
  destruct es as [|[tok e]]; [done|]. simpl.
  intros He. split; [eexists; reflexivity|].
  rewrite ExpressionStatement_String_Ref.
  destruct (Expression_not_nil e) eqn:Hnil; [|by eexists].
  by apply wf_Expression_returns.
Qed.

Lemma wf_Statement_returns (s : Statement) :
  wf_Statement s = true →
  returns (Statement_TokenLiteral s) ∧ returns (Statement_String s).
Proof.
  destruct s as [|ls|rs|es]; simpl; [done|..].
  - apply wf_LetStatement_returns.
  - apply wf_ReturnStatement_returns.
  - apply wf_ExpressionStatement_returns.
Qed.

Lemma wf_Program_returns (p : ptr Program) :
  wf_Program p = true →
  returns (Program_TokenLiteral p) ∧ returns (Program_String p).
Proof.
  destruct p as [|p]; [done|]. simpl. intros Hwf.
  assert (Forall (λ s, wf_Statement s = true) (Program_Statements p)) as Hall.
  { apply Forall_forall. intros s Hs%list_elem_of_In.
    by apply (proj1 (forallb_forall _ _) Hwf). }
  split.
  - rewrite Program_TokenLiteral_Ref.
    destruct Hall as [|s rest Hs _]; [by eexists|].
    by apply wf_Statement_returns.
  - rewrite Program_String_glue.
    destruct (mapM_Ok_Forall Statement_String (Program_Statements p)) as [texts ->].
    + eapply Forall_impl; [exact Hall|]. intros s Hs.
      by apply wf_Statement_returns.
    + by eexists.
Qed.

(** C3: on every well-formed node of the five shapes (a Program, a
    LetStatement, a ReturnStatement, an ExpressionStatement or an Identifier,
    optional children present or absent), [TokenLiteral] and [String] both
    return a text: neither panics. *)
Theorem Node_methods_total (n : Node) :
  wf_Node n = true →
  (∃ lit : string, Node_TokenLiteral n = Ok lit)
  ∧ (∃ text : string, Node_String n = Ok text).
Proof.
  destruct n as [|p|ls|rs|es|i]; simpl; [done|..].
  - apply wf_Program_returns.
  - apply wf_LetStatement_returns.
  - apply wf_ReturnStatement_returns.
  - apply wf_ExpressionStatement_returns.
  - apply wf_Identifier_returns.
Qed.

Lemma Node_methods_total_sample :
  wf_Node (Node_Program sample_program) = true
  ∧ (∃ lit : string, Node_TokenLiteral (Node_Program sample_program) = Ok lit)
  ∧ (∃ text : string, Node_String (Node_Program sample_program) = Ok text).
Proof.
  split; [reflexivity|].
  apply (Node_methods_total (Node_Program sample_program)). reflexivity.
Defined.

(** The statements with every optional child absent are well formed too. *)
Example Node_methods_total_absent_children :
  let bare := [Statement_Let (Ref (mkLetStatement (mkToken LET "let") (ident "x") Expression_nil));
               Statement_Return return_bare;
               Statement_Expression
                 (Ref (mkExpressionStatement (mkToken IDENT "x") Expression_nil))] in
  wf_Node (Node_Program (Ref (mkProgram bare))) = true
  ∧ Node_TokenLiteral (Node_Program (Ref (mkProgram bare))) = Ok "let"
  ∧ Node_String (Node_Program (Ref (mkProgram bare))) = Ok "let x = ;return ;".
Proof. repeat split. Qed.

(** * The methods over the store *)

(** ** Steps of a computation *)

Lemma M_bind_Ok {A B} (m : Mem.M A) (f : A → Mem.M B) (h h' : Mem.store) (a : A) :
  m h = Some (Ok a, h') → (m ≫= f) h = f a h'.
Proof. intros Hm. unfold mbind, Mem.M_bind. by rewrite Hm. Qed.

Lemma M_bind_Panic {A B} (m : Mem.M A) (f : A → Mem.M B) (h h' : Mem.store) (e : panic) :
  m h = Some (Panic e, h') → (m ≫= f) h = Some (Panic e, h').
Proof. intros Hm. unfold mbind, Mem.M_bind. by rewrite Hm. Qed.

Lemma M_bind_inv {A B} (m : Mem.M A) (f : A → Mem.M B) (h h' : Mem.store) (r : result B) :
  (m ≫= f) h = Some (r, h') →
  (∃ a h1, m h = Some (Ok a, h1) ∧ f a h1 = Some (r, h'))
  ∨ (∃ e, m h = Some (Panic e, h') ∧ r = Panic e).
Proof.
  unfold mbind, Mem.M_bind.
  destruct (m h) as [[[a|e] h1]|]; intros Hr; [|simplify_eq|done].
  - left. by exists a, h1.
  - right. by exists e.
Qed.

Lemma M_bind_assoc {A B C} (m : Mem.M A) (f : A → Mem.M B) (g : B → Mem.M C)
    (h : Mem.store) :
  ((m ≫= f) ≫= g) h = (m ≫= λ a, f a ≫= g) h.
Proof.
  unfold mbind, Mem.M_bind. by destruct (m h) as [[[a|e] h1]|].
Qed.

Lemma M_ret_bind {A B} (a : A) (f : A → Mem.M B) (h : Mem.store) :
  (mret a ≫= f) h = f a h.
Proof. reflexivity. Qed.

Lemma field_allocated {A B} (cells : Mem.store → gmap Mem.loc A) (f : A → B)
    (h : Mem.store) (l : Mem.loc) (v : A) :
  cells h !! l = Some v → Mem.field cells (Some l) f h = Some (Ok (f v), h).
Proof.
  intros Hl. unfold Mem.field. erewrite M_bind_Ok; [reflexivity|].
  unfold Mem.load. by rewrite Hl.
Qed.

(** ** No method writes to the store *)

Lemma readonly_ret {A} (a : A) : Mem.readonly (mret a : Mem.M A).
Proof. intros h r h' [= _ ->]. done. Qed.

Lemma readonly_raise {A} (e : panic) : Mem.readonly (Mem.raise e : Mem.M A).
Proof. intros h r h' [= _ ->]. done. Qed.

Lemma readonly_load {A} (cells : Mem.store → gmap Mem.loc A) (p : Mem.pointer) :
  Mem.readonly (Mem.load cells p).
Proof.
  intros h r h'. unfold Mem.load.
  destruct p as [l|]; [destruct (cells h !! l)|]; intros Hr; by simplify_eq.
Qed.

Lemma readonly_bind {A B} (m : Mem.M A) (f : A → Mem.M B) :
  Mem.readonly m → (∀ a, Mem.readonly (f a)) → Mem.readonly (m ≫= f).
Proof.
  intros Hm Hf h r h' [(a & h1 & Hrun & Hk)|(e & Hrun & _)]%M_bind_inv.
  - apply Hm in Hrun as ->. by apply Hf in Hk.
  - by apply Hm in Hrun.
Qed.

Lemma readonly_field {A B} (cells : Mem.store → gmap Mem.loc A) (p : Mem.pointer)
    (f : A → B) :
  Mem.readonly (Mem.field cells p f).
Proof.
  apply readonly_bind; [apply readonly_load | intros v; apply readonly_ret].
Qed.

Lemma readonly_if {A} (b : bool) (m1 m2 : Mem.M A) :
  Mem.readonly m1 → Mem.readonly m2 → Mem.readonly (if b then m1 else m2).
Proof. by destruct b. Qed.

Lemma readonly_for_range {A S} (body : S → A → Mem.M S) (s : list A) (acc : S) :
  (∀ acc x, Mem.readonly (body acc x)) → Mem.readonly (for_range body acc s).
Proof.
  intros Hbody. revert acc.
  induction s as [|x s IH]; intros acc; simpl.
  - apply readonly_ret.
  - apply readonly_bind; [apply Hbody | exact IH].
Qed.

(** A write is not read-only: the predicate does tell computations apart. *)
Lemma set_Identifier_Value_writes :
  ¬ Mem.readonly (Mem.set_Identifier_Value (Some 1%positive) "z").
Proof.
  intros Hro.
  destruct (Mem.set_Identifier_Value (Some 1%positive) "z" sample_store)
    as [[r h']|] eqn:Hrun; [|by vm_compute in Hrun].
  pose proof (Hro _ _ _ Hrun) as ->.
  vm_compute in Hrun.
  apply (f_equal (λ o, h ← snd <$> o; Mem.identifiers h !! 1%positive)) in Hrun.
  by vm_compute in Hrun.
Qed.

Create HintDb readonly.

#[export] Hint Resolve readonly_ret readonly_raise readonly_load readonly_field
  : readonly.

(** Goes through a method body bind by bind; the leaves are reads of the
    store and calls of methods already known to be read-only. *)
Ltac solve_readonly :=
  repeat (cbv zeta;
          first
            [ solve [auto 1 with readonly]
            | apply readonly_bind; [|intros ?]
            | apply readonly_if
            | apply readonly_for_range; intros ? ? ]).

Lemma readonly_Identifier_TokenLiteral (i : Mem.pointer) :
  Mem.readonly (Mem.Identifier_TokenLiteral i).
Proof. unfold Mem.Identifier_TokenLiteral. solve_readonly. Qed.

Lemma readonly_Identifier_String (i : Mem.pointer) :
  Mem.readonly (Mem.Identifier_String i).
Proof. unfold Mem.Identifier_String. solve_readonly. Qed.

#[export] Hint Resolve readonly_Identifier_TokenLiteral readonly_Identifier_String
  : readonly.

Lemma readonly_Expression_String (e : Mem.Expression) :
  Mem.readonly (Mem.Expression_String e).
Proof. destruct e as [|i]; simpl; solve_readonly. Qed.

Lemma readonly_LetStatement_TokenLiteral (ls : Mem.pointer) :
  Mem.readonly (Mem.LetStatement_TokenLiteral ls).
Proof. unfold Mem.LetStatement_TokenLiteral. solve_readonly. Qed.

Lemma readonly_ReturnStatement_TokenLiteral (rs : Mem.pointer) :
  Mem.readonly (Mem.ReturnStatement_TokenLiteral rs).
Proof. unfold Mem.ReturnStatement_TokenLiteral. solve_readonly. Qed.

Lemma readonly_ExpressionStatement_TokenLiteral (es : Mem.pointer) :
  Mem.readonly (Mem.ExpressionStatement_TokenLiteral es).
Proof. unfold Mem.ExpressionStatement_TokenLiteral. solve_readonly. Qed.

#[export] Hint Resolve readonly_Expression_String readonly_LetStatement_TokenLiteral
  readonly_ReturnStatement_TokenLiteral readonly_ExpressionStatement_TokenLiteral
  : readonly.

Lemma readonly_LetStatement_String (ls : Mem.pointer) :
  Mem.readonly (Mem.LetStatement_String ls).
Proof. unfold Mem.LetStatement_String. solve_readonly. Qed.

Lemma readonly_ReturnStatement_String (rs : Mem.pointer) :
  Mem.readonly (Mem.ReturnStatement_String rs).
Proof. unfold Mem.ReturnStatement_String. solve_readonly. Qed.

Lemma readonly_ExpressionStatement_String (es : Mem.pointer) :
  Mem.readonly (Mem.ExpressionStatement_String es).
Proof. unfold Mem.ExpressionStatement_String. solve_readonly. Qed.

#[export] Hint Resolve readonly_LetStatement_String readonly_ReturnStatement_String
  readonly_ExpressionStatement_String : readonly.

Lemma readonly_Statement_TokenLiteral (s : Mem.Statement) :
  Mem.readonly (Mem.Statement_TokenLiteral s).
Proof. destruct s; simpl; solve_readonly. Qed.

Lemma readonly_Statement_String (s : Mem.Statement) :
  Mem.readonly (Mem.Statement_String s).
Proof. destruct s; simpl; solve_readonly. Qed.

#[export] Hint Resolve readonly_Statement_TokenLiteral readonly_Statement_String
  : readonly.

Lemma readonly_Program_String (p : Mem.pointer) :
  Mem.readonly (Mem.Program_String p).
Proof. unfold Mem.Program_String. solve_readonly. Qed.

Lemma readonly_Program_TokenLiteral (p : Mem.pointer) :
  Mem.readonly (Mem.Program_TokenLiteral p).
Proof.
  unfold Mem.Program_TokenLiteral. solve_readonly.
  destruct (_ !! 0); solve_readonly.
Qed.

#[export] Hint Resolve readonly_Program_String readonly_Program_TokenLiteral
  : readonly.

Lemma readonly_Node_TokenLiteral (n : Mem.Node) :
  Mem.readonly (Mem.Node_TokenLiteral n).
Proof. destruct n; simpl; solve_readonly. Qed.

Lemma readonly_Node_String (n : Mem.Node) :
  Mem.readonly (Mem.Node_String n).
Proof. destruct n; simpl; solve_readonly. Qed.

(** ** The two models agree

    When the store holds a tree at a node, a method run on the store gives
    the outcome the method of the first model gives on that tree, and the
    store it was given. *)

Lemma reify_ptr_Some {A B} (cells : gmap Mem.loc A) (f : A → option B)
    (l : Mem.loc) (t : ptr B) :
  reify_ptr cells f (Some l) = Some t →
  ∃ a b, cells !! l = Some a ∧ f a = Some b ∧ t = Ref b.
Proof.
  unfold reify_ptr. destruct (cells !! l) as [a|] eqn:Hl; simpl; [|done].
  destruct (f a) as [b|] eqn:Hb; simpl; [|done]. intros [= <-]. by exists a, b.
Qed.

Lemma reify_ptr_None {A B} (cells : gmap Mem.loc A) (f : A → option B) (t : ptr B) :
  reify_ptr cells f None = Some t → t = Nil.
Proof. by intros [= <-]. Qed.

Lemma Mem_Identifier_String_reify (h : Mem.store) (i : Mem.pointer) (t : ptr Identifier) :
  reify_Identifier h i = Some t →
  Mem.Identifier_String i h = Some (Identifier_String t, h).
Proof.
  unfold reify_Identifier. destruct i as [l|].
  - intros (a & b & Hl & [= <-] & ->)%reify_ptr_Some.
    unfold Mem.Identifier_String. by erewrite field_allocated.
  - by intros ->%reify_ptr_None.
Qed.

Lemma Mem_Identifier_TokenLiteral_reify (h : Mem.store) (i : Mem.pointer)
    (t : ptr Identifier) :
  reify_Identifier h i = Some t →
  Mem.Identifier_TokenLiteral i h = Some (Identifier_TokenLiteral t, h).
Proof.
  unfold reify_Identifier. destruct i as [l|].
  - intros (a & b & Hl & [= <-] & ->)%reify_ptr_Some.
    unfold Mem.Identifier_TokenLiteral.
    by erewrite M_bind_Ok by (by apply field_allocated).
  - by intros ->%reify_ptr_None.
Qed.

Lemma Mem_Expression_String_reify (h : Mem.store) (e : Mem.Expression) (t : Expression) :
  reify_Expression h e = Some t →
  Mem.Expression_String e h = Some (Expression_String t, h).
Proof.
  destruct e as [|i]; simpl.
  - by intros [= <-].
  - destruct (reify_Identifier h i) as [ti|] eqn:Hi; simpl; [|done].
    intros [= <-]. by apply Mem_Identifier_String_reify.
Qed.

Lemma Expression_not_nil_reify (h : Mem.store) (e : Mem.Expression) (t : Expression) :
  reify_Expression h e = Some t →
  Mem.Expression_not_nil e = Expression_not_nil t.
Proof.
  destruct e as [|i]; simpl.
  - by intros [= <-].
  - destruct (reify_Identifier h i); simpl; [|done]. by intros [= <-].
Qed.

(** One step of a run whose first computation has a known outcome: a field
    of an allocated struct, or a call whose outcome is among the hypotheses. *)
Ltac mem_step :=
  first
    [ rewrite M_bind_assoc
    | rewrite M_ret_bind
    | match goal with
      | |- (?m ≫= _) _ = _ =>
          first
            [ erewrite (M_bind_Ok m) by (first [eassumption | by apply field_allocated])
            | erewrite (M_bind_Panic m) by eassumption ]
      end ].

Lemma Mem_LetStatement_TokenLiteral_reify (h : Mem.store) (ls : Mem.pointer)
    (t : ptr LetStatement) :
  reify_LetStatement h ls = Some t →
  Mem.LetStatement_TokenLiteral ls h = Some (LetStatement_TokenLiteral t, h).
Proof.
  unfold reify_LetStatement. destruct ls as [l|].
  - intros ([tok name value] & b & Hl & Hb & ->)%reify_ptr_Some.
    simpl in Hb.
    destruct (reify_Identifier h name) as [tname|]; simpl in Hb; [|done].
    destruct (reify_Expression h value) as [tvalue|]; simpl in Hb; [|done].
    injection Hb as <-.
    unfold Mem.LetStatement_TokenLiteral. by mem_step.
  - by intros ->%reify_ptr_None.
Qed.

Lemma Mem_LetStatement_String_reify (h : Mem.store) (ls : Mem.pointer)
    (t : ptr LetStatement) :
  reify_LetStatement h ls = Some t →
  Mem.LetStatement_String ls h = Some (LetStatement_String t, h).
Proof.
  intros Hls. pose proof (Mem_LetStatement_TokenLiteral_reify _ _ _ Hls) as Hlit.
  revert Hls Hlit. unfold reify_LetStatement. destruct ls as [l|].
  - intros ([tok name value] & b & Hl & Hb & ->)%reify_ptr_Some Hlit.
    simpl in Hb.
    destruct (reify_Identifier h name) as [tname|] eqn:Hname; simpl in Hb; [|done].
    destruct (reify_Expression h value) as [tvalue|] eqn:Hvalue; simpl in Hb; [|done].
    injection Hb as <-.
    apply Mem_Identifier_String_reify in Hname.
    pose proof (Expression_not_nil_reify _ _ _ Hvalue) as Hnil.
    apply Mem_Expression_String_reify in Hvalue.
    unfold Mem.LetStatement_String, LetStatement_String.
    rewrite LetStatement_TokenLiteral_Ref in *. cbn [deref].
    rewrite !result_bind_Ok.
    cbn [LetStatement_Token LetStatement_Name LetStatement_Value] in *. cbv zeta.
    do 2 mem_step. cbn [Mem.LetStatement_Name].
    destruct (Identifier_String tname) as [n|e]; mem_step; [|done].
    mem_step. cbn [Mem.LetStatement_Value]. rewrite Hnil.
    destruct (Expression_not_nil tvalue).
    + do 2 mem_step. cbn [Mem.LetStatement_Value].
      destruct (Expression_String tvalue) as [v|e]; repeat mem_step; done.
    + by repeat mem_step.
  - by intros ->%reify_ptr_None.
Qed.

Lemma Mem_ReturnStatement_TokenLiteral_reify (h : Mem.store) (rs : Mem.pointer)
    (t : ptr ReturnStatement) :
  reify_ReturnStatement h rs = Some t →
  Mem.ReturnStatement_TokenLiteral rs h = Some (ReturnStatement_TokenLiteral t, h).
Proof.
  unfold reify_ReturnStatement. destruct rs as [l|].
  - intros ([tok value] & b & Hl & Hb & ->)%reify_ptr_Some.
    simpl in Hb.
    destruct (reify_Expression h value) as [tvalue|]; simpl in Hb; [|done].
    injection Hb as <-.
    unfold Mem.ReturnStatement_TokenLiteral. by mem_step.
  - by intros ->%reify_ptr_None.
Qed.

Lemma Mem_ReturnStatement_String_reify (h : Mem.store) (rs : Mem.pointer)
    (t : ptr ReturnStatement) :
  reify_ReturnStatement h rs = Some t →
  Mem.ReturnStatement_String rs h = Some (ReturnStatement_String t, h).
Proof.
  intros Hrs. pose proof (Mem_ReturnStatement_TokenLiteral_reify _ _ _ Hrs) as Hlit.
  revert Hrs Hlit. unfold reify_ReturnStatement. destruct rs as [l|].
  - intros ([tok value] & b & Hl & Hb & ->)%reify_ptr_Some Hlit.
    simpl in Hb.
    destruct (reify_Expression h value) as [tvalue|] eqn:Hvalue; simpl in Hb; [|done].
    injection Hb as <-.
    pose proof (Expression_not_nil_reify _ _ _ Hvalue) as Hnil.
    apply Mem_Expression_String_reify in Hvalue.
    unfold Mem.ReturnStatement_String, ReturnStatement_String.
    rewrite ReturnStatement_TokenLiteral_Ref in *. cbn [deref].
    rewrite !result_bind_Ok.
    cbn [ReturnStatement_Token ReturnStatement_ReturnValue] in *. cbv zeta.
    do 2 mem_step. cbn [Mem.ReturnStatement_ReturnValue]. rewrite Hnil.
    destruct (Expression_not_nil tvalue).
    + do 2 mem_step. cbn [Mem.ReturnStatement_ReturnValue].
      destruct (Expression_String tvalue) as [v|e]; repeat mem_step; done.
    + by repeat mem_step.
  - by intros ->%reify_ptr_None.
Qed.

Lemma Mem_ExpressionStatement_TokenLiteral_reify (h : Mem.store) (es : Mem.pointer)
    (t : ptr ExpressionStatement) :
  reify_ExpressionStatement h es = Some t →
  Mem.ExpressionStatement_TokenLiteral es h
  = Some (ExpressionStatement_TokenLiteral t, h).
Proof.
  unfold reify_ExpressionStatement. destruct es as [l|].
  - intros ([tok value] & b & Hl & Hb & ->)%reify_ptr_Some.
    simpl in Hb.
    destruct (reify_Expression h value) as [tvalue|]; simpl in Hb; [|done].
    injection Hb as <-.
    unfold Mem.ExpressionStatement_TokenLiteral. by mem_step.
  - by intros ->%reify_ptr_None.
Qed.

Lemma Mem_ExpressionStatement_String_reify (h : Mem.store) (es : Mem.pointer)
    (t : ptr ExpressionStatement) :
  reify_ExpressionStatement h es = Some t →
  Mem.ExpressionStatement_String es h = Some (ExpressionStatement_String t, h).
Proof.
  unfold reify_ExpressionStatement. destruct es as [l|].
  - intros ([tok value] & b & Hl & Hb & ->)%reify_ptr_Some.
    simpl in Hb.
    destruct (reify_Expression h value) as [tvalue|] eqn:Hvalue; simpl in Hb; [|done].
    injection Hb as <-.
    pose proof (Expression_not_nil_reify _ _ _ Hvalue) as Hnil.
    apply Mem_Expression_String_reify in Hvalue.
    rewrite ExpressionStatement_String_Ref.
    unfold Mem.ExpressionStatement_String.
    mem_step. cbn [Mem.ExpressionStatement_Expression]. rewrite Hnil.
    destruct (Expression_not_nil tvalue); [|done].
    by mem_step.
  - by intros ->%reify_ptr_None.
Qed.

Lemma Mem_Statement_TokenLiteral_reify (h : Mem.store) (s : Mem.Statement) (t : Statement) :
  reify_Statement h s = Some t →
  Mem.Statement_TokenLiteral s h = Some (Statement_TokenLiteral t, h).
Proof.
  destruct s as [|ls|rs|es]; simpl.
  - by intros [= <-].
  - destruct (reify_LetStatement h ls) eqn:H; simpl; [|done].
    intros [= <-]. by apply Mem_LetStatement_TokenLiteral_reify.
  - destruct (reify_ReturnStatement h rs) eqn:H; simpl; [|done].
    intros [= <-]. by apply Mem_ReturnStatement_TokenLiteral_reify.
  - destruct (reify_ExpressionStatement h es) eqn:H; simpl; [|done].
    intros [= <-]. by apply Mem_ExpressionStatement_TokenLiteral_reify.
Qed.

Lemma Mem_Statement_String_reify (h : Mem.store) (s : Mem.Statement) (t : Statement) :
  reify_Statement h s = Some t →
  Mem.Statement_String s h = Some (Statement_String t, h).
Proof.
  destruct s as [|ls|rs|es]; simpl.
  - by intros [= <-].
  - destruct (reify_LetStatement h ls) eqn:H; simpl; [|done].
    intros [= <-]. by apply Mem_LetStatement_String_reify.
  - destruct (reify_ReturnStatement h rs) eqn:H; simpl; [|done].
    intros [= <-]. by apply Mem_ReturnStatement_String_reify.
  - destruct (reify_ExpressionStatement h es) eqn:H; simpl; [|done].
    intros [= <-]. by apply Mem_ExpressionStatement_String_reify.
Qed.

(** The loop of [Program.String], run on the store. *)
Lemma Mem_for_range_reify (h : Mem.store) (stmts : list Mem.Statement)
    (ts : list Statement) (out : Buffer.t) :
  mapM (reify_Statement h) stmts = Some ts →
  for_range (λ out s, str ← Mem.Statement_String s; mret (Buffer.WriteString out str))
    out stmts h
  = Some (for_range
            (λ out s, str ← Statement_String s; mret (Buffer.WriteString out str))
            out ts, h).
Proof.
  revert ts out. induction stmts as [|s stmts IH]; intros ts out; simpl.
  - by intros [= <-].
  - destruct (reify_Statement h s) as [t|] eqn:Hs; simpl; [|done].
    destruct (mapM (reify_Statement h) stmts) as [ts'|] eqn:Hrest; simpl; [|done].
    intros [= <-]. simpl.
    apply Mem_Statement_String_reify in Hs.
    mem_step.
    destruct (Statement_String t) as [str|e]; mem_step; [|done].
    mem_step. rewrite result_bind_Ok. by apply IH.
Qed.

Lemma Mem_Program_String_reify (h : Mem.store) (p : Mem.pointer) (t : ptr Program) :
  reify_Program h p = Some t →
  Mem.Program_String p h = Some (Program_String t, h).
Proof.
  unfold reify_Program. destruct p as [l|].
  - intros ([stmts] & b & Hl & Hb & ->)%reify_ptr_Some.
    simpl in Hb.
    destruct (mapM (reify_Statement h) stmts) as [ts|] eqn:Hstmts; simpl in Hb; [|done].
    injection Hb as <-.
    unfold Mem.Program_String, Program_String. cbn [deref]. cbv zeta.
    rewrite result_bind_Ok. cbn [Program_Statements].
    mem_step. cbn [Mem.Program_Statements].
    pose proof (Mem_for_range_reify h stmts ts Buffer.zero Hstmts) as Hloop.
    destruct (for_range _ Buffer.zero ts) as [out|e]; mem_step; done.
  - by intros ->%reify_ptr_None.
Qed.

Lemma Mem_Program_TokenLiteral_reify (h : Mem.store) (p : Mem.pointer) (t : ptr Program) :
  reify_Program h p = Some t →
  Mem.Program_TokenLiteral p h = Some (Program_TokenLiteral t, h).
Proof.
  unfold reify_Program. destruct p as [l|].
  - intros ([stmts] & b & Hl & Hb & ->)%reify_ptr_Some.
    simpl in Hb.
    destruct (mapM (reify_Statement h) stmts) as [ts|] eqn:Hstmts; simpl in Hb; [|done].
    injection Hb as <-.
    rewrite Program_TokenLiteral_Ref.
    cbn [Program_Statements].
    unfold Mem.Program_TokenLiteral. mem_step. cbn [Mem.Program_Statements].
    destruct stmts as [|s stmts]; simpl in Hstmts.
    + injection Hstmts as <-. done.
    + destruct (reify_Statement h s) as [t|] eqn:Hs; simpl in Hstmts; [|done].
      destruct (mapM (reify_Statement h) stmts) as [ts'|]; simpl in Hstmts; [|done].
      injection Hstmts as <-.
      rewrite bool_decide_eq_true_2 by (simpl; lia).
      mem_step. cbn [Mem.Program_Statements].
      change ((s :: stmts) !! 0) with (Some s). cbv iota beta. mem_step.
      by apply Mem_Statement_TokenLiteral_reify.
  - by intros ->%reify_ptr_None.
Qed.

(** Every method of every node agrees with the first model. *)
Theorem Mem_Node_reify (h : Mem.store) (n : Mem.Node) (t : Node) :
  reify_Node h n = Some t →
  Mem.Node_TokenLiteral n h = Some (Node_TokenLiteral t, h)
  ∧ Mem.Node_String n h = Some (Node_String t, h).
Proof.
  destruct n as [|p|ls|rs|es|i]; simpl.
  - by intros [= <-].
  - destruct (reify_Program h p) eqn:H; simpl; [|done]. intros [= <-].
    split; [by apply Mem_Program_TokenLiteral_reify | by apply Mem_Program_String_reify].
  - destruct (reify_LetStatement h ls) eqn:H; simpl; [|done]. intros [= <-].
    split; [by apply Mem_LetStatement_TokenLiteral_reify
           | by apply Mem_LetStatement_String_reify].
  - destruct (reify_ReturnStatement h rs) eqn:H; simpl; [|done]. intros [= <-].
    split; [by apply Mem_ReturnStatement_TokenLiteral_reify
           | by apply Mem_ReturnStatement_String_reify].
  - destruct (reify_ExpressionStatement h es) eqn:H; simpl; [|done]. intros [= <-].
    split; [by apply Mem_ExpressionStatement_TokenLiteral_reify
           | by apply Mem_ExpressionStatement_String_reify].
  - destruct (reify_Identifier h i) eqn:H; simpl; [|done]. intros [= <-].
    split; [by apply Mem_Identifier_TokenLiteral_reify
           | by apply Mem_Identifier_String_reify].
Qed.

(** ** Printing twice *)

Example reify_sample_store :
  reify_Node sample_store sample_node = Some (Node_Program sample_program).
Proof. vm_compute. reflexivity. Qed.

Example Mem_Node_String_sample :
  Mem.Node_String sample_node sample_store
  = Some (Ok "let x = y;return ;foobar", sample_store).
Proof.
  destruct (Mem_Node_reify _ _ _ reify_sample_store) as [_ ->].
  reflexivity.
Qed.

(** C9: [String] is deterministic and has no side effect.  Whatever the node
    and the store, a call that comes back -- with a text or with a panic --
    comes back with the store it was given, so no field of any node has
    changed, and a second call on the same node then has the same outcome and
    again leaves the store as it was. *)
Theorem Node_String_twice (n : Mem.Node) (h h1 : Mem.store) (r : result string) :
  Mem.Node_String n h = Some (r, h1) →
  h1 = h ∧ Mem.Node_String n h1 = Some (r, h1).
Proof.
  intros Hrun.
  pose proof (readonly_Node_String n h r h1 Hrun) as ->.
  split; [reflexivity | exact Hrun].
Qed.

Lemma Node_String_twice_sample :
  Mem.Node_String sample_node sample_store
  = Some (Ok "let x = y;return ;foobar", sample_store)
  ∧ sample_store = sample_store
  ∧ Mem.Node_String sample_node sample_store
    = Some (Ok "let x = y;return ;foobar", sample_store).
Proof.
  split; [vm_compute; reflexivity|].
  apply (Node_String_twice sample_node sample_store sample_store
           (Ok "let x = y;return ;foobar")).
  vm_compute; reflexivity.
Defined.

(** * Further properties of the printer *)

(** ** Lists of results *)

Lemma glue_app (ts us : list string) : glue (ts ++ us) = glue ts +:+ glue us.
Proof.
  induction ts as [|t ts IH]; [done|].
  change (t +:+ glue (ts ++ us) = (t +:+ glue ts) +:+ glue us).
  by rewrite IH, append_assoc.
Qed.

Lemma mapM_result_cons {A B} (f : A → result B) (x : A) (l : list A) :
  mapM f (x :: l) = (y ← f x; ys ← mapM f l; mret (y :: ys)).
Proof. reflexivity. Qed.

Lemma mapM_result_app {A B} (f : A → result B) (l1 l2 : list A) :
  mapM f (l1 ++ l2) = (ys1 ← mapM f l1; ys2 ← mapM f l2; mret (ys1 ++ ys2)).
Proof.
  induction l1 as [|x l1 IH].
  - simpl. by destruct (mapM f l2).
  - rewrite <- app_comm_cons, !mapM_result_cons, IH.
    destruct (f x) as [y|e]; [|done]. rewrite !result_bind_Ok.
    destruct (mapM f l1) as [ys1|e]; [|done]. rewrite !result_bind_Ok.
    by destruct (mapM f l2).
Qed.

Lemma result_bind_Panic_eq {A B} (e : panic) (f : A → result B) :
  (Panic e ≫= f) = Panic e.
Proof. reflexivity. Qed.

(** A list prints only if each of its elements does. *)
Lemma mapM_Ok_inv {A B} (f : A → result B) (l : list A) (ys : list B) :
  mapM f l = Ok ys → Forall (λ x, ∃ y, f x = Ok y) l.
Proof.
  revert ys. induction l as [|x l IH]; intros ys; [constructor|].
  rewrite mapM_result_cons.
  destruct (f x) as [y|e] eqn:Hx; [|done]. rewrite result_bind_Ok.
  destruct (mapM f l) as [ys'|e] eqn:Hl; [|done]. intros _.
  constructor; [by exists y | by apply (IH ys')].
Qed.

(** A panic of the list is the panic of one of its elements. *)
Lemma mapM_Panic_inv {A B} (f : A → result B) (l : list A) (e : panic) :
  mapM f l = Panic e → ∃ x, x ∈ l ∧ f x = Panic e.
Proof.
  induction l as [|x l IH]; [done|].
  rewrite mapM_result_cons.
  destruct (f x) as [y|e'] eqn:Hx.
  - rewrite result_bind_Ok.
    destruct (mapM f l) as [ys|e'] eqn:Hl; [done|].
    intros [= ->]. destruct IH as (x' & Hin & Hx'); [done|].
    exists x'. split; [by right | done].
  - intros [= ->]. exists x. split; [by left | done].
Qed.

(** ** Exactly when a method panics *)

Lemma Identifier_String_returns_wf (i : ptr Identifier) :
  returns (Identifier_String i) → wf_Identifier i = true.
Proof. destruct i as [|i]; [by intros [text [=]] | done]. Qed.

Lemma Expression_String_returns_wf (e : Expression) :
  returns (Expression_String e) → wf_Expression e = true.
Proof.
  destruct e as [|i]; [done|]. apply Identifier_String_returns_wf.
Qed.

Lemma LetStatement_String_returns_wf (ls : ptr LetStatement) :
  returns (LetStatement_String ls) → wf_LetStatement ls = true.
Proof.
  destruct ls as [|[tok name e]]; [by intros [text [=]]|].
  rewrite LetStatement_String_Ref. simpl.
  destruct name as [|name]; [by intros [text [=]]|].
  rewrite Identifier_String_Ref, result_bind_Ok.
  destruct e as [|i]; [done|]. simpl.
  destruct i as [|i]; [by intros [text [=]] | done].
Qed.

Lemma ReturnStatement_String_returns_wf (rs : ptr ReturnStatement) :
  returns (ReturnStatement_String rs) → wf_ReturnStatement rs = true.
Proof.
  destruct rs as [|[tok e]]; [by intros [text [=]]|].
  rewrite ReturnStatement_String_Ref. simpl.
  destruct e as [|i]; [done|]. simpl.
  destruct i as [|i]; [by intros [text [=]] | done].
Qed.

Lemma ExpressionStatement_String_returns_wf (es : ptr ExpressionStatement) :
  returns (ExpressionStatement_String es) → wf_ExpressionStatement es = true.
Proof.
  destruct es as [|[tok e]]; [by intros [text [=]]|].
  rewrite ExpressionStatement_String_Ref. simpl.
  destruct e as [|i]; [done|]. simpl.
  destruct i as [|i]; [by intros [text [=]] | done].
Qed.

Lemma Statement_String_returns_wf (s : Statement) :
  returns (Statement_String s) → wf_Statement s = true.
Proof.
  destruct s as [|ls|rs|es]; simpl.
  - by intros [text [=]].
  - apply LetStatement_String_returns_wf.
  - apply ReturnStatement_String_returns_wf.
  - apply ExpressionStatement_String_returns_wf.
Qed.

Lemma Program_String_returns_wf (p : ptr Program) :
  returns (Program_String p) → wf_Program p = true.
Proof.
  destruct p as [|p]; [by intros [text [=]]|].
  rewrite Program_String_glue. simpl.
  destruct (mapM Statement_String (Program_Statements p)) as [texts|e] eqn:Hall;
    [|by intros [text [=]]].
  intros _. apply mapM_Ok_inv in Hall.
  apply forallb_forall. intros s Hs%list_elem_of_In.
  apply Statement_String_returns_wf.
  by apply (proj1 (Forall_forall _ _) Hall).
Qed.

Lemma Node_String_returns_wf (n : Node) :
  returns (Node_String n) → wf_Node n = true.
Proof.
  destruct n as [|p|ls|rs|es|i]; simpl.
  - by intros [text [=]].
  - apply Program_String_returns_wf.
  - apply LetStatement_String_returns_wf.
  - apply ReturnStatement_String_returns_wf.
  - apply ExpressionStatement_String_returns_wf.
  - apply Identifier_String_returns_wf.
Qed.

Lemma wf_Node_returns (n : Node) :
  wf_Node n = true → returns (Node_TokenLiteral n) ∧ returns (Node_String n).
Proof.
  destruct n as [|p|ls|rs|es|i]; simpl; [done|..].
  - apply wf_Program_returns.
  - apply wf_LetStatement_returns.
  - apply wf_ReturnStatement_returns.
  - apply wf_ExpressionStatement_returns.
  - apply wf_Identifier_returns.
Qed.

(** X1: [String] returns a text exactly on the well-formed nodes.  It panics
    on a nil receiver, on a nil interface among the statements of a Program,
    on a nil [Name], and on a child interface that is not nil but holds a nil
    [*Identifier] (the test [!= nil] lets that one through); it panics on
    nothing else. *)
Theorem Node_String_returns_iff_wf (n : Node) :
  (∃ text : string, Node_String n = Ok text) ↔ wf_Node n = true.
Proof.
  split; [apply Node_String_returns_wf|].
  intros Hwf. by apply wf_Node_returns.
Qed.

(** The calls through [Statement] raise no panic but the nil dereference. *)
Lemma Statement_String_no_index_panic (s : Statement) :
  Statement_String s ≠ Panic IndexOutOfRange.
Proof.
  destruct s as [|[|[tok name e]]|[|[tok e]]|[|[tok e]]]; simpl; try discriminate.
  - rewrite LetStatement_String_Ref.
    destruct name as [|name]; [discriminate|].
    rewrite Identifier_String_Ref, result_bind_Ok.
    destruct e as [|[|i]]; discriminate.
  - rewrite ReturnStatement_String_Ref. destruct e as [|[|i]]; discriminate.
  - rewrite ExpressionStatement_String_Ref. destruct e as [|[|i]]; discriminate.
Qed.

Lemma Program_String_no_index_panic (p : ptr Program) :
  Program_String p ≠ Panic IndexOutOfRange.
Proof.
  destruct p as [|p]; [discriminate|].
  rewrite Program_String_glue.
  destruct (mapM Statement_String (Program_Statements p)) as [texts|e] eqn:Hall;
    [discriminate|].
  rewrite result_bind_Panic_eq. intros [= ->].
  apply mapM_Panic_inv in Hall as (s & _ & Hs).
  by apply (Statement_String_no_index_panic s).
Qed.

Lemma Node_TokenLiteral_no_index_panic (n : Node) :
  Node_TokenLiteral n ≠ Panic IndexOutOfRange.
Proof.
  destruct n as [|[|p]|[|ls]|[|rs]|[|es]|[|i]]; simpl; try discriminate.
  rewrite Program_TokenLiteral_Ref.
  destruct (Program_Statements p) as [|s rest]; [discriminate|].
  apply Statement_TokenLiteral_no_index_panic.
Qed.

Lemma Node_String_no_index_panic (n : Node) :
  Node_String n ≠ Panic IndexOutOfRange.
Proof.
  destruct n as [|p|ls|rs|es|i]; simpl.
  - discriminate.
  - apply Program_String_no_index_panic.
  - apply (Statement_String_no_index_panic (Statement_Let ls)).
  - apply (Statement_String_no_index_panic (Statement_Return rs)).
  - apply (Statement_String_no_index_panic (Statement_Expression es)).
  - destruct i; discriminate.
Qed.

(** X2: when a method of a node panics, in [TokenLiteral] or in [String], the
    panic is a nil dereference: the one indexing of the package,
    [p.Statements[0]], is guarded by the length test, and the loop of
    [Program.String] ranges over the slice. *)
Theorem Node_panic_is_nil_dereference (n : Node) (e : panic) :
  Node_TokenLiteral n = Panic e ∨ Node_String n = Panic e →
  e = NilDereference.
Proof.
  destruct e; [done|]. intros [H|H]; exfalso.
  - by apply (Node_TokenLiteral_no_index_panic n).
  - by apply (Node_String_no_index_panic n).
Qed.

Lemma Node_panic_is_nil_dereference_nil_Name :
  (Node_TokenLiteral
     (Node_Let (Ref (mkLetStatement (mkToken LET "let") Nil Expression_nil)))
   = Panic NilDereference
   ∨ Node_String
       (Node_Let (Ref (mkLetStatement (mkToken LET "let") Nil Expression_nil)))
     = Panic NilDereference)
  ∧ NilDereference = NilDereference.
Proof.
  split; [right; reflexivity|].
  apply (Node_panic_is_nil_dereference
           (Node_Let (Ref (mkLetStatement (mkToken LET "let") Nil Expression_nil)))).
  right; reflexivity.
Defined.

(** X3: on every node on which [String] returns a text, [TokenLiteral]
    returns one too. *)
Theorem Node_String_returns_TokenLiteral (n : Node) (text : string) :
  Node_String n = Ok text → ∃ lit : string, Node_TokenLiteral n = Ok lit.
Proof.
  intros Hn. apply wf_Node_returns, Node_String_returns_wf. by exists text.
Qed.

Lemma Node_String_returns_TokenLiteral_sample :
  Node_String (Node_Program sample_program) = Ok "let x = y;return ;foobar"
  ∧ ∃ lit : string, Node_TokenLiteral (Node_Program sample_program) = Ok lit.
Proof.
  split; [reflexivity|].
  apply (Node_String_returns_TokenLiteral (Node_Program sample_program)
           "let x = y;return ;foobar").
  reflexivity.
Defined.

(** Not the other way round: [TokenLiteral] reads no child, and of a Program
    only the first statement. *)
Example TokenLiteral_returns_String_panics :
  Node_TokenLiteral (Node_Program (Ref (mkProgram [Statement_Let let_x_y; Statement_nil])))
  = Ok "let"
  ∧ Node_String (Node_Program (Ref (mkProgram [Statement_Let let_x_y; Statement_nil])))
    = Panic NilDereference.
Proof. split; reflexivity. Qed.

(** ** The texts of the statements *)

(** X4: a LetStatement whose name and value are both present prints its
    token literal, a space, the name, [ = ], the value and a semicolon. *)
Theorem LetStatement_String_template (tok : Token) (name value : Identifier) :
  LetStatement_String
    (Ref (mkLetStatement tok (Ref name) (Expression_Identifier (Ref value))))
  = Ok (Literal tok +:+ " " +:+ Identifier_Value name +:+ " = "
        +:+ Identifier_Value value +:+ ";").
Proof. by rewrite LetStatement_String_Ref. Qed.

(** X5: a ReturnStatement whose value is present prints its token literal,
    a space, the value and a semicolon, whatever the token literal is. *)
Theorem ReturnStatement_String_template (tok : Token) (value : Identifier) :
  ReturnStatement_String
    (Ref (mkReturnStatement tok (Expression_Identifier (Ref value))))
  = Ok (Literal tok +:+ " " +:+ Identifier_Value value +:+ ";").
Proof. by rewrite ReturnStatement_String_Ref. Qed.

(** X6: the text of a LetStatement or of a ReturnStatement, when the method
    returns one, begins with the token literal of the statement followed by
    a space and ends with a semicolon. *)
Theorem Statement_String_shape (s : Statement) (text : string) :
  (∀ es, s ≠ Statement_Expression es) →
  Statement_String s = Ok text →
  ∃ lit middle : string,
    Statement_TokenLiteral s = Ok lit ∧ text = lit +:+ " " +:+ middle +:+ ";".
Proof.
  intros Hs. destruct s as [|[|[tok name e]]|[|[tok e]]|es]; simpl; try done.
  - rewrite LetStatement_String_Ref.
    destruct (Identifier_String name) as [n|err]; [|done]. rewrite result_bind_Ok.
    destruct (Expression_not_nil e).
    + destruct (Expression_String e) as [value|err]; [|done].
      intros [= <-]. exists (Literal tok), (n +:+ " = " +:+ value).
      split; [done|]. by rewrite !append_assoc.
    + intros [= <-]. exists (Literal tok), (n +:+ " = ").
      split; [done|]. by rewrite !append_assoc.
  - rewrite ReturnStatement_String_Ref.
    destruct (Expression_not_nil e).
    + destruct (Expression_String e) as [value|err]; [|done].
      intros [= <-]. by exists (Literal tok), value.
    + intros [= <-]. by exists (Literal tok), "".
  - by destruct (Hs es).
Qed.

Lemma Statement_String_shape_let_x_y :
  (∀ es, Statement_Let let_x_y ≠ Statement_Expression es)
  ∧ Statement_String (Statement_Let let_x_y) = Ok "let x = y;"
  ∧ ∃ lit middle : string,
      Statement_TokenLiteral (Statement_Let let_x_y) = Ok lit
      ∧ "let x = y;" = lit +:+ " " +:+ middle +:+ ";".
Proof.
  split; [intros es; discriminate|].
  split; [reflexivity|].
  apply (Statement_String_shape (Statement_Let let_x_y) "let x = y;");
    [intros es; discriminate | reflexivity].
Defined.

(** An ExpressionStatement adds neither: it prints its expression alone. *)
Example ExpressionStatement_String_no_terminator :
  Statement_String (Statement_Expression stmt_foobar) = Ok "foobar".
Proof. reflexivity. Qed.

(** ** Programs put together *)

(** X7: the text of a Program whose statements are those of one list
    followed by those of another is the text of the first followed by the
    text of the second; so a statement appended to a Program appends its text,
    the empty Program prints the empty text, and a Program of one statement
    prints as that statement. *)
Theorem Program_String_app (stmts1 stmts2 : list Statement) (s : Statement) :
  Program_String (Ref (mkProgram (stmts1 ++ stmts2)))
  = (a ← Program_String (Ref (mkProgram stmts1));
     b ← Program_String (Ref (mkProgram stmts2));
     mret (a +:+ b))
  ∧ Program_String (Ref (mkProgram (stmts1 ++ [s])))
    = (a ← Program_String (Ref (mkProgram stmts1));
       b ← Statement_String s;
       mret (a +:+ b))
  ∧ Program_String (Ref (mkProgram [])) = Ok ""
  ∧ Program_String (Ref (mkProgram [s])) = Statement_String s.
Proof.
  assert (∀ l1 l2,
    Program_String (Ref (mkProgram (l1 ++ l2)))
    = (a ← Program_String (Ref (mkProgram l1));
       b ← Program_String (Ref (mkProgram l2));
       mret (a +:+ b))) as Happ.
  { intros l1 l2. rewrite !Program_String_glue. cbn [Program_Statements].
    rewrite mapM_result_app.
    destruct (mapM Statement_String l1) as [ts1|e]; [|done].
    rewrite !result_bind_Ok.
    destruct (mapM Statement_String l2) as [ts2|e]; [|done].
    rewrite !result_bind_Ok. unfold mret, result_ret. by rewrite glue_app. }
  assert (Program_String (Ref (mkProgram [s])) = Statement_String s) as Hone.
  { rewrite Program_String_glue. cbn [Program_Statements].
    rewrite mapM_result_cons. destruct (Statement_String s) as [t|e]; [|done].
    simpl. unfold mret, result_ret, glue. simpl. by rewrite append_nil_r. }
  split; [apply Happ|]. split; [by rewrite Happ, Hone|]. split; [done | exact Hone].
Qed.

(** * Further properties over the store *)

(** X8: [TokenLiteral] has no side effect either: whatever the node and the
    store, a call that comes back comes back with the store it was given, and
    a second call then has the same outcome. *)
Theorem Node_TokenLiteral_twice (n : Mem.Node) (h h1 : Mem.store) (r : result string) :
  Mem.Node_TokenLiteral n h = Some (r, h1) →
  h1 = h ∧ Mem.Node_TokenLiteral n h1 = Some (r, h1).
Proof.
  intros Hrun.
  pose proof (readonly_Node_TokenLiteral n h r h1 Hrun) as ->.
  split; [reflexivity | exact Hrun].
Qed.

Lemma Node_TokenLiteral_twice_sample :
  Mem.Node_TokenLiteral sample_node sample_store = Some (Ok "let", sample_store)
  ∧ sample_store = sample_store
  ∧ Mem.Node_TokenLiteral sample_node sample_store = Some (Ok "let", sample_store).
Proof.
  split; [vm_compute; reflexivity|].
  apply (Node_TokenLiteral_twice sample_node sample_store sample_store (Ok "let")).
  vm_compute; reflexivity.
Defined.

(** X9: what the methods give depends on the tree alone.  Two nodes, in one
    store or in two, under which the same tree hangs, have the same token
    literal and print the same text (or panic alike), whatever the addresses
    of their structs and whatever else the stores hold. *)
Theorem Mem_Node_same_tree (h1 h2 : Mem.store) (n1 n2 : Mem.Node) (t : Node) :
  reify_Node h1 n1 = Some t →
  reify_Node h2 n2 = Some t →
  ∃ lit text : result string,
    Mem.Node_TokenLiteral n1 h1 = Some (lit, h1)
    ∧ Mem.Node_TokenLiteral n2 h2 = Some (lit, h2)
    ∧ Mem.Node_String n1 h1 = Some (text, h1)
    ∧ Mem.Node_String n2 h2 = Some (text, h2).
Proof.
  intros [Hlit1 Htext1]%Mem_Node_reify [Hlit2 Htext2]%Mem_Node_reify.
  by exists (Node_TokenLiteral t), (Node_String t).
Qed.

Lemma Mem_Node_same_tree_sample :
  reify_Node sample_store sample_node = Some (Node_Program sample_program)
  ∧ reify_Node sample_store_moved (Mem.Node_Program (Some 2%positive))
    = Some (Node_Program sample_program)
  ∧ ∃ lit text : result string,
      Mem.Node_TokenLiteral sample_node sample_store = Some (lit, sample_store)
      ∧ Mem.Node_TokenLiteral (Mem.Node_Program (Some 2%positive)) sample_store_moved
        = Some (lit, sample_store_moved)
      ∧ Mem.Node_String sample_node sample_store = Some (text, sample_store)
      ∧ Mem.Node_String (Mem.Node_Program (Some 2%positive)) sample_store_moved
        = Some (text, sample_store_moved).
Proof.
  split; [vm_compute; reflexivity|].
  split; [vm_compute; reflexivity|].
  apply (Mem_Node_same_tree sample_store sample_store_moved sample_node
           (Mem.Node_Program (Some 2%positive)) (Node_Program sample_program));
    vm_compute; reflexivity.
Defined.

(** ** Allocations elsewhere *)

Lemma store_included_refl (h : Mem.store) : store_included h h.
Proof. by repeat split. Qed.

Lemma framed_ret {A} (a : A) : framed (mret a : Mem.M A).
Proof. intros h h' r h1 [= <- <-] _. done. Qed.

Lemma framed_raise {A} (e : panic) : framed (Mem.raise e : Mem.M A).
Proof. intros h h' r h1 [= <- <-] _. done. Qed.

Lemma framed_load {A} (cells : Mem.store → gmap Mem.loc A) (p : Mem.pointer) :
  (∀ h h', store_included h h' → cells h ⊆ cells h') →
  framed (Mem.load cells p).
Proof.
  intros Hcells h h' r h1 Hrun Hincl. unfold Mem.load in *.
  destruct p as [l|]; [|by simplify_eq].
  destruct (cells h !! l) as [v|] eqn:Hl; [|done].
  simplify_eq. split; [done|].
  by rewrite (lookup_weaken _ _ _ _ Hl (Hcells _ _ Hincl)).
Qed.

Lemma framed_bind {A B} (m : Mem.M A) (f : A → Mem.M B) :
  framed m → (∀ a, framed (f a)) → framed (m ≫= f).
Proof.
  intros Hm Hf h h' r h2 [(a & h1 & Hrun & Hk)|(e & Hrun & ->)]%M_bind_inv Hincl.
  - destruct (Hm _ _ _ _ Hrun Hincl) as [-> Hrun'].
    destruct (Hf _ _ _ _ _ Hk Hincl) as [-> Hk'].
    split; [done|]. by erewrite M_bind_Ok.
  - destruct (Hm _ _ _ _ Hrun Hincl) as [-> Hrun'].
    split; [done|]. by erewrite M_bind_Panic.
Qed.

Lemma framed_field {A B} (cells : Mem.store → gmap Mem.loc A) (p : Mem.pointer)
    (f : A → B) :
  (∀ h h', store_included h h' → cells h ⊆ cells h') →
  framed (Mem.field cells p f).
Proof.
  intros Hcells. apply framed_bind; [by apply framed_load | intros v; apply framed_ret].
Qed.

Lemma framed_if {A} (b : bool) (m1 m2 : Mem.M A) :
  framed m1 → framed m2 → framed (if b then m1 else m2).
Proof. by destruct b. Qed.

Lemma framed_for_range {A S} (body : S → A → Mem.M S) (s : list A) (acc : S) :
  (∀ acc x, framed (body acc x)) → framed (for_range body acc s).
Proof.
  intros Hbody. revert acc.
  induction s as [|x s IH]; intros acc; simpl.
  - apply framed_ret.
  - apply framed_bind; [apply Hbody | exact IH].
Qed.

Lemma identifiers_included (h h' : Mem.store) :
  store_included h h' → Mem.identifiers h ⊆ Mem.identifiers h'.
Proof. by intros (? & ? & ? & ? & ?). Qed.

Lemma letStatements_included (h h' : Mem.store) :
  store_included h h' → Mem.letStatements h ⊆ Mem.letStatements h'.
Proof. by intros (? & ? & ? & ? & ?). Qed.

Lemma returnStatements_included (h h' : Mem.store) :
  store_included h h' → Mem.returnStatements h ⊆ Mem.returnStatements h'.
Proof. by intros (? & ? & ? & ? & ?). Qed.

Lemma expressionStatements_included (h h' : Mem.store) :
  store_included h h' → Mem.expressionStatements h ⊆ Mem.expressionStatements h'.
Proof. by intros (? & ? & ? & ? & ?). Qed.

Lemma programs_included (h h' : Mem.store) :
  store_included h h' → Mem.programs h ⊆ Mem.programs h'.
Proof. by intros (? & ? & ? & ? & ?). Qed.

Create HintDb framed.

#[export] Hint Resolve framed_ret framed_raise identifiers_included
  letStatements_included returnStatements_included expressionStatements_included
  programs_included : framed.

Ltac solve_framed :=
  repeat (cbv zeta;
          first
            [ solve [auto 1 with framed]
            | apply framed_field; solve [auto 3 with framed]
            | apply framed_bind; [|intros ?]
            | apply framed_if
            | apply framed_for_range; intros ? ? ]).

Lemma framed_Identifier_TokenLiteral (i : Mem.pointer) :
  framed (Mem.Identifier_TokenLiteral i).
Proof. unfold Mem.Identifier_TokenLiteral. solve_framed. Qed.

Lemma framed_Identifier_String (i : Mem.pointer) :
  framed (Mem.Identifier_String i).
Proof. unfold Mem.Identifier_String. solve_framed. Qed.

#[export] Hint Resolve framed_Identifier_TokenLiteral framed_Identifier_String
  : framed.

Lemma framed_Expression_String (e : Mem.Expression) :
  framed (Mem.Expression_String e).
Proof. destruct e as [|i]; simpl; solve_framed. Qed.

Lemma framed_LetStatement_TokenLiteral (ls : Mem.pointer) :
  framed (Mem.LetStatement_TokenLiteral ls).
Proof. unfold Mem.LetStatement_TokenLiteral. solve_framed. Qed.

Lemma framed_ReturnStatement_TokenLiteral (rs : Mem.pointer) :
  framed (Mem.ReturnStatement_TokenLiteral rs).
Proof. unfold Mem.ReturnStatement_TokenLiteral. solve_framed. Qed.

Lemma framed_ExpressionStatement_TokenLiteral (es : Mem.pointer) :
  framed (Mem.ExpressionStatement_TokenLiteral es).
Proof. unfold Mem.ExpressionStatement_TokenLiteral. solve_framed. Qed.

#[export] Hint Resolve framed_Expression_String framed_LetStatement_TokenLiteral
  framed_ReturnStatement_TokenLiteral framed_ExpressionStatement_TokenLiteral
  : framed.

Lemma framed_LetStatement_String (ls : Mem.pointer) :
  framed (Mem.LetStatement_String ls).
Proof. unfold Mem.LetStatement_String. solve_framed. Qed.

Lemma framed_ReturnStatement_String (rs : Mem.pointer) :
  framed (Mem.ReturnStatement_String rs).
Proof. unfold Mem.ReturnStatement_String. solve_framed. Qed.

Lemma framed_ExpressionStatement_String (es : Mem.pointer) :
  framed (Mem.ExpressionStatement_String es).
Proof. unfold Mem.ExpressionStatement_String. solve_framed. Qed.

#[export] Hint Resolve framed_LetStatement_String framed_ReturnStatement_String
  framed_ExpressionStatement_String : framed.

Lemma framed_Statement_TokenLiteral (s : Mem.Statement) :
  framed (Mem.Statement_TokenLiteral s).
Proof. destruct s; simpl; solve_framed. Qed.

Lemma framed_Statement_String (s : Mem.Statement) :
  framed (Mem.Statement_String s).
Proof. destruct s; simpl; solve_framed. Qed.

#[export] Hint Resolve framed_Statement_TokenLiteral framed_Statement_String
  : framed.

Lemma framed_Program_String (p : Mem.pointer) :
  framed (Mem.Program_String p).
Proof. unfold Mem.Program_String. solve_framed. Qed.

Lemma framed_Program_TokenLiteral (p : Mem.pointer) :
  framed (Mem.Program_TokenLiteral p).
Proof.
  unfold Mem.Program_TokenLiteral. solve_framed.
  destruct (_ !! 0); solve_framed.
Qed.

#[export] Hint Resolve framed_Program_String framed_Program_TokenLiteral
  : framed.

Lemma framed_Node_TokenLiteral (n : Mem.Node) :
  framed (Mem.Node_TokenLiteral n).
Proof. destruct n; simpl; solve_framed. Qed.

Lemma framed_Node_String (n : Mem.Node) :
  framed (Mem.Node_String n).
Proof. destruct n; simpl; solve_framed. Qed.

(** X10: allocations elsewhere change nothing.  When the structs of a store
    are all in a larger store, at the same addresses and with the same
    fields, every call of [TokenLiteral] or [String] that comes back from the
    first comes back from the larger one with the same text or the same
    panic. *)
Theorem Mem_Node_methods_frame (n : Mem.Node) (h h' : Mem.store) :
  store_included h h' →
  (∀ r h1, Mem.Node_TokenLiteral n h = Some (r, h1) →
           Mem.Node_TokenLiteral n h' = Some (r, h'))
  ∧ (∀ r h1, Mem.Node_String n h = Some (r, h1) →
             Mem.Node_String n h' = Some (r, h')).
Proof.
  intros Hincl. split; intros r h1 Hrun.
  - by destruct (framed_Node_TokenLiteral n h h' r h1 Hrun Hincl).
  - by destruct (framed_Node_String n h h' r h1 Hrun Hincl).
Qed.

Lemma sample_store_included_grown : store_included sample_store sample_store_grown.
Proof.
  split; [|by repeat split].
  apply insert_subseteq. vm_compute. reflexivity.
Qed.

Lemma Mem_Node_methods_frame_sample :
  store_included sample_store sample_store_grown
  ∧ Mem.Node_String sample_node sample_store
    = Some (Ok "let x = y;return ;foobar", sample_store)
  ∧ Mem.Node_String sample_node sample_store_grown
    = Some (Ok "let x = y;return ;foobar", sample_store_grown).
Proof.
  split; [exact sample_store_included_grown|].
  split; [vm_compute; reflexivity|].
  apply (proj2 (Mem_Node_methods_frame sample_node sample_store sample_store_grown
                  sample_store_included_grown)
           (Ok "let x = y;return ;foobar") sample_store).
  vm_compute; reflexivity.
Defined.

(** * What the text does not tell *)

(** X11: the text does not determine the tree.  A LetStatement without a
    value prints as one whose value is an identifier with the empty name; and
    since an ExpressionStatement adds no terminator and a Program no
    separator, two expression statements in a row print as one statement
    whose identifier is the two names run together. *)
Theorem String_not_injective (tok tok1 tok2 itok itok1 itok2 : Token)
    (name : Identifier) (a b : string) :
  LetStatement_String (Ref (mkLetStatement tok (Ref name) Expression_nil))
  = LetStatement_String
      (Ref (mkLetStatement tok (Ref name)
              (Expression_Identifier (Ref (mkIdentifier itok "")))))
  ∧ Program_String
      (Ref (mkProgram
              [Statement_Expression
                 (Ref (mkExpressionStatement tok1
                         (Expression_Identifier (Ref (mkIdentifier itok1 a)))));
               Statement_Expression
                 (Ref (mkExpressionStatement tok2
                         (Expression_Identifier (Ref (mkIdentifier itok2 b)))))]))
    = Program_String
        (Ref (mkProgram
                [Statement_Expression
                   (Ref (mkExpressionStatement tok
                           (Expression_Identifier
                              (Ref (mkIdentifier itok (a +:+ b))))))])).
Proof.
  split.
  - by rewrite !LetStatement_String_Ref.
  - rewrite !Program_String_glue. cbn [Program_Statements].
    rewrite !mapM_result_cons. cbn [Statement_String].
    rewrite !ExpressionStatement_String_Ref. cbn [Expression_not_nil Expression_String].
    rewrite !Identifier_String_Ref. cbn [Identifier_Value].
    rewrite !result_bind_Ok. simpl. unfold mret, result_ret, glue. simpl.
    by rewrite !append_nil_r.
Qed.
